(** * gocut: reachability closure of the declarations used by an entry file

    A shallow embedding of [main.go] (package [main] of chenhg5/gocut) and
    the verification of its closure computation [CollectUsedDeclarations],
    of the two expression walkers [visitTypeExpr] and [visitExpr], and of
    the command-line driver [main]. *)

From stdpp Require Import gmap strings list fin_maps sets.

Set Default Proof Using "Type".
#[local] Set Warnings "-clear-no-such-hyp".
Open Scope string_scope.
Open Scope list_scope.

(** ** Syntax trees ([go/ast])

    Positions, comments and operator tokens play no role in the traversal
    and are left out.  An interface-typed child that may hold [nil] is an
    [Expr] or [Stmt] with the extra constructor [NilExpr] / [NilStmt]; a
    pointer-typed child that may be [nil] ([*FieldList], [*BlockStmt]) is an
    [option]. *)

(** [*ast.Ident]: the maps of [types.Info] are keyed by the pointer, which
    [ident_ptr] stands for. *)
Record Ident := mkIdent { ident_ptr : positive; Name : string }.

#[local] Unset Elimination Schemes.

Inductive Expr :=
| NilExpr
| BadExpr
| IdentExpr (id : Ident)
| Ellipsis (Elt : Expr)
| BasicLit (Value : string)
| FuncLit (Type_ : FuncType) (Body : list Stmt)
| CompositeLit (Type_ : Expr) (Elts : list Expr)
| ParenExpr (X : Expr)
| SelectorExpr (X : Expr) (Sel : Ident)
| IndexExpr (X Index : Expr)
| IndexListExpr (X : Expr) (Indices : list Expr)
| SliceExpr (X Low High Max : Expr)
| TypeAssertExpr (X Type_ : Expr)
| CallExpr (Fun : Expr) (Args : list Expr)
| StarExpr (X : Expr)
| UnaryExpr (X : Expr)
| BinaryExpr (X Y : Expr)
| KeyValueExpr (Key Value : Expr)
| ArrayType (Len Elt : Expr)
| StructType (Fields : option (list Field))
| FuncTypeExpr (ft : FuncType)
| InterfaceType (Methods : option (list Field))
| MapType (Key Value : Expr)
| ChanType (Value : Expr)
with Field :=
| mkField (Names : list Ident) (Type_ : Expr)
with FuncType :=
| mkFuncType (TypeParams Params Results : option (list Field))
with Stmt :=
| NilStmt
| BadStmt
| DeclStmt (D : Decl)
| EmptyStmt
| LabeledStmt (Label : Ident) (Stmt_ : Stmt)
| ExprStmt (X : Expr)
| SendStmt (Chan Value : Expr)
| IncDecStmt (X : Expr)
| AssignStmt (Lhs Rhs : list Expr)
| GoStmt (Call : Expr)
| DeferStmt (Call : Expr)
| ReturnStmt (Results : list Expr)
| BranchStmt (Label : option Ident)
| BlockStmt (List_ : list Stmt)
| IfStmt (Init : Stmt) (Cond : Expr) (Body : list Stmt) (Else : Stmt)
| CaseClause (List_ : list Expr) (Body : list Stmt)
| SwitchStmt (Init : Stmt) (Tag : Expr) (Body : list Stmt)
| TypeSwitchStmt (Init Assign : Stmt) (Body : list Stmt)
| CommClause (Comm : Stmt) (Body : list Stmt)
| SelectStmt (Body : list Stmt)
| ForStmt (Init : Stmt) (Cond : Expr) (Post : Stmt) (Body : list Stmt)
| RangeStmt (Key Value X : Expr) (Body : list Stmt)
with Spec :=
| ImportSpec (Name_ : option Ident) (Path : string)
| ValueSpec (Names : list Ident) (Type_ : Expr) (Values : list Expr)
| TypeSpec (Name_ : Ident) (TypeParams : option (list Field)) (Type_ : Expr)
with Decl :=
| BadDecl
| GenDecl (Specs : list Spec)
| FuncDecl (Recv : option (list Field)) (Name_ : Ident) (Type_ : FuncType)
           (Body : option (list Stmt)).

#[local] Set Elimination Schemes.

Definition Field_Type (f : Field) : Expr :=
  match f with mkField _ t => t end.

(** [*ast.File], with the file name that [fset.Position(f.Pos()).Filename]
    reports for it. *)
Record File := mkFile { Filename : string; Decls : list Decl }.

(** ** Resolved symbols ([go/types]) *)

(** A [types.Object] is compared by identity; [obj_id] stands for it, so
    two objects may carry the same [obj_name]. *)
Record Object := mkObject { obj_id : positive; obj_name : string }.

#[global] Instance Object_eq_dec : EqDecision Object.
Proof. solve_decision. Defined.

#[global] Instance Object_countable : Countable Object.
Proof.
  apply (inj_countable' (λ o, (obj_id o, obj_name o))
                        (λ p, mkObject p.1 p.2)).
  by intros [].
Defined.

(** [types.Info]: a lookup of an absent key yields [nil], here [None]. *)
Record Info := mkInfo {
  Uses : gmap positive Object;
  Defs : gmap positive Object
}.

(** ** The traversal state and its commands

    [visit] is a closure over the three maps [visited], [used] and
    [declMap]; they are threaded explicitly.  [used] only ever stores
    [true], so it is a set of names.  A command either finishes in a new
    state, fails with a Go runtime panic, or runs out of the fuel that
    bounds the depth of the recursion of [visit]. *)

Record State := mkState {
  visited : gset Object;
  used : gset string;
  declMap : gmap string Decl
}.

Inductive Result :=
| Done (st : State)
| Panic
| OutOfFuel.

Definition Cmd := State → Result.

Definition skip : Cmd := Done.
Definition panic : Cmd := λ _, Panic.

Definition seq (c1 c2 : Cmd) : Cmd :=
  λ st, match c1 st with
        | Done st' => c2 st'
        | Panic => Panic
        | OutOfFuel => OutOfFuel
        end.

Declare Scope cmd_scope.
Delimit Scope cmd_scope with cmd.
Notation "c1 ;; c2" := (seq c1 c2)
  (at level 100, c2 at level 200, right associativity) : cmd_scope.
Open Scope cmd_scope.

(** [for _, x := range l { body x }] *)
Definition forEach {A} (body : A → Cmd) : list A → Cmd :=
  fix go (l : list A) : Cmd :=
    match l with
    | [] => skip
    | x :: l' => body x ;; go l'
    end.

(** [p.List] for a [p *ast.FieldList]: a nil pointer dereference panics. *)
Definition forFields (body : Field → Cmd) (p : option (list Field)) : Cmd :=
  match p with
  | None => panic
  | Some l => forEach body l
  end.

(** ** [visitTypeExpr] *)

Fixpoint visitTypeExpr (expr : Expr) (info : Info)
    (visit : option Object → Cmd) {struct expr} : Cmd :=
  match expr with
  | IdentExpr e => visit (Uses info !! ident_ptr e)
  | StarExpr X => visitTypeExpr X info visit
  | ArrayType _ Elt => visitTypeExpr Elt info visit
  | MapType Key Value =>
      visitTypeExpr Key info visit ;; visitTypeExpr Value info visit
  | SelectorExpr X _ => visitTypeExpr X info visit
  | FuncTypeExpr (mkFuncType _ Params Results) =>
      forFields (λ field, visitTypeExpr (Field_Type field) info visit) Params ;;
      forFields (λ field, visitTypeExpr (Field_Type field) info visit) Results
  | InterfaceType _ => skip
  | ChanType Value => visitTypeExpr Value info visit
  | Ellipsis Elt => visitTypeExpr Elt info visit
  | _ => skip
  end.

(** ** [visitExpr] *)

Fixpoint visitExpr (expr : Expr) (info : Info)
    (visit : option Object → Cmd) {struct expr} : Cmd :=
  match expr with
  | CompositeLit Type_ Elts =>
      visitTypeExpr Type_ info visit ;;
      forEach (λ elt, visitExpr elt info visit) Elts
  | CallExpr Fun Args =>
      visitExpr Fun info visit ;;
      forEach (λ arg, visitExpr arg info visit) Args
  | UnaryExpr X => visitExpr X info visit
  | BinaryExpr X Y => visitExpr X info visit ;; visitExpr Y info visit
  | ParenExpr X => visitExpr X info visit
  | KeyValueExpr Key Value =>
      visitExpr Key info visit ;; visitExpr Value info visit
  | IdentExpr e => visit (Uses info !! ident_ptr e)
  | SelectorExpr X _ => visitExpr X info visit
  | IndexExpr X Index => visitExpr X info visit ;; visitExpr Index info visit
  | SliceExpr X Low High Max =>
      visitExpr X info visit ;;
      match Low with NilExpr => skip | _ => visitExpr Low info visit end ;;
      match High with NilExpr => skip | _ => visitExpr High info visit end ;;
      match Max with NilExpr => skip | _ => visitExpr Max info visit end
  | TypeAssertExpr X _ => visitExpr X info visit
  | BasicLit _ | BadExpr | FuncLit _ _ | Ellipsis _ => skip
  | _ => skip
  end.

(** ** [ast.Inspect]

    [ast.Inspect] belongs to [go/ast]: it hands every node of a subtree to
    its callback, depth first, children in the order of [ast.Walk], and
    descends as long as the callback answers [true].  Both callbacks of
    [main.go] answer [true] always and act on [*ast.Ident] nodes only, so a
    walk is the sequence of identifier nodes it meets.  [ast.Walk] panics
    on a [nil] node, and on the nil field list of a struct or interface
    type, in the places where it does not test for it. *)

Inductive WalkEvent :=
| SeeIdent (id : Ident)
| WalkPanic.

Definition walkList {A} (f : A → list WalkEvent) (l : list A) : list WalkEvent :=
  flat_map f l.

Definition walkOpt {A} (f : A → list WalkEvent) (p : option A) : list WalkEvent :=
  match p with
  | None => []
  | Some x => f x
  end.

Definition seeIdents (l : list Ident) : list WalkEvent := map SeeIdent l.

Fixpoint walkExpr (n : Expr) : list WalkEvent :=
  match n with
  | NilExpr => [WalkPanic]
  | BadExpr | BasicLit _ => []
  | IdentExpr id => [SeeIdent id]
  | Ellipsis Elt => match Elt with NilExpr => [] | _ => walkExpr Elt end
  | FuncLit Type_ Body => walkFuncType Type_ ++ walkList walkStmt Body
  | CompositeLit Type_ Elts =>
      match Type_ with NilExpr => [] | _ => walkExpr Type_ end ++
      walkList walkExpr Elts
  | ParenExpr X => walkExpr X
  | SelectorExpr X Sel => walkExpr X ++ [SeeIdent Sel]
  | IndexExpr X Index => walkExpr X ++ walkExpr Index
  | IndexListExpr X Indices => walkExpr X ++ walkList walkExpr Indices
  | SliceExpr X Low High Max =>
      walkExpr X ++
      match Low with NilExpr => [] | _ => walkExpr Low end ++
      match High with NilExpr => [] | _ => walkExpr High end ++
      match Max with NilExpr => [] | _ => walkExpr Max end
  | TypeAssertExpr X Type_ =>
      walkExpr X ++ match Type_ with NilExpr => [] | _ => walkExpr Type_ end
  | CallExpr Fun Args => walkExpr Fun ++ walkList walkExpr Args
  | StarExpr X => walkExpr X
  | UnaryExpr X => walkExpr X
  | BinaryExpr X Y => walkExpr X ++ walkExpr Y
  | KeyValueExpr Key Value => walkExpr Key ++ walkExpr Value
  | ArrayType Len Elt =>
      match Len with NilExpr => [] | _ => walkExpr Len end ++ walkExpr Elt
  | StructType Fields =>
      match Fields with
      | None => [WalkPanic]
      | Some l => walkList walkField l
      end
  | FuncTypeExpr ft => walkFuncType ft
  | InterfaceType Methods =>
      match Methods with
      | None => [WalkPanic]
      | Some l => walkList walkField l
      end
  | MapType Key Value => walkExpr Key ++ walkExpr Value
  | ChanType Value => walkExpr Value
  end
with walkField (n : Field) : list WalkEvent :=
  match n with
  | mkField Names Type_ =>
      seeIdents Names ++ match Type_ with NilExpr => [] | _ => walkExpr Type_ end
  end
with walkFuncType (n : FuncType) : list WalkEvent :=
  match n with
  | mkFuncType TypeParams Params Results =>
      walkOpt (walkList walkField) TypeParams ++
      walkOpt (walkList walkField) Params ++
      walkOpt (walkList walkField) Results
  end
with walkStmt (n : Stmt) : list WalkEvent :=
  match n with
  | NilStmt => [WalkPanic]
  | BadStmt | EmptyStmt => []
  | DeclStmt D => walkDecl D
  | LabeledStmt Label Stmt_ => SeeIdent Label :: walkStmt Stmt_
  | ExprStmt X => walkExpr X
  | SendStmt Chan Value => walkExpr Chan ++ walkExpr Value
  | IncDecStmt X => walkExpr X
  | AssignStmt Lhs Rhs => walkList walkExpr Lhs ++ walkList walkExpr Rhs
  | GoStmt Call => walkExpr Call
  | DeferStmt Call => walkExpr Call
  | ReturnStmt Results => walkList walkExpr Results
  | BranchStmt Label => seeIdents (option_list Label)
  | BlockStmt List_ => walkList walkStmt List_
  | IfStmt Init Cond Body Else =>
      match Init with NilStmt => [] | _ => walkStmt Init end ++
      walkExpr Cond ++ walkList walkStmt Body ++
      match Else with NilStmt => [] | _ => walkStmt Else end
  | CaseClause List_ Body => walkList walkExpr List_ ++ walkList walkStmt Body
  | SwitchStmt Init Tag Body =>
      match Init with NilStmt => [] | _ => walkStmt Init end ++
      match Tag with NilExpr => [] | _ => walkExpr Tag end ++
      walkList walkStmt Body
  | TypeSwitchStmt Init Assign Body =>
      match Init with NilStmt => [] | _ => walkStmt Init end ++
      walkStmt Assign ++ walkList walkStmt Body
  | CommClause Comm Body =>
      match Comm with NilStmt => [] | _ => walkStmt Comm end ++
      walkList walkStmt Body
  | SelectStmt Body => walkList walkStmt Body
  | ForStmt Init Cond Post Body =>
      match Init with NilStmt => [] | _ => walkStmt Init end ++
      match Cond with NilExpr => [] | _ => walkExpr Cond end ++
      match Post with NilStmt => [] | _ => walkStmt Post end ++
      walkList walkStmt Body
  | RangeStmt Key Value X Body =>
      match Key with NilExpr => [] | _ => walkExpr Key end ++
      match Value with NilExpr => [] | _ => walkExpr Value end ++
      walkExpr X ++ walkList walkStmt Body
  end
with walkSpec (n : Spec) : list WalkEvent :=
  match n with
  | ImportSpec Name_ _ => seeIdents (option_list Name_)
  | ValueSpec Names Type_ Values =>
      seeIdents Names ++
      match Type_ with NilExpr => [] | _ => walkExpr Type_ end ++
      walkList walkExpr Values
  | TypeSpec Name_ TypeParams Type_ =>
      SeeIdent Name_ :: walkOpt (walkList walkField) TypeParams ++ walkExpr Type_
  end
with walkDecl (n : Decl) : list WalkEvent :=
  match n with
  | BadDecl => []
  | GenDecl Specs => walkList walkSpec Specs
  | FuncDecl Recv Name_ Type_ Body =>
      walkOpt (walkList walkField) Recv ++ SeeIdent Name_ ::
      walkFuncType Type_ ++ walkOpt (walkList walkStmt) Body
  end.

Definition Inspect (node : list WalkEvent) (f : Ident → Cmd) : Cmd :=
  forEach (λ ev, match ev with
                 | SeeIdent id => f id
                 | WalkPanic => panic
                 end) node.

(** ** [CollectUsedDeclarations] *)

Section Closure.
(** [info] and [files] are the variables of the same names that the
    closure [visit] captures. *)
Variable info : Info.
Variable files : list File.

(** [ref := info.Uses[id]; if ref == nil { ref = info.Defs[id] }] *)
Definition resolve (id : Ident) : option Object :=
  match Uses info !! ident_ptr id with
  | Some ref => Some ref
  | None => Defs info !! ident_ptr id
  end.

(** [declMap[name] = d] *)
Definition setDecl (name : string) (d : Decl) : Cmd :=
  λ st, Done (mkState (visited st) (used st) (<[name := d]> (declMap st))).

(** [visited[obj] = true; used[obj.Name()] = true] *)
Definition mark (obj : Object) (st : State) : State :=
  mkState ({[obj]} ∪ visited st) ({[obj_name obj]} ∪ used st) (declMap st).

Section Expand.
(** The recursive occurrence of [visit] inside its own body. *)
Variable visit : option Object → Cmd.
Variable obj : Object.

Definition visitSpec (d : Decl) (spec : Spec) : Cmd :=
  match spec with
  | TypeSpec Name_ _ Type_ =>
      if decide (Name Name_ = obj_name obj) then
        setDecl (obj_name obj) d ;;
        match Type_ with
        | StructType Fields =>
            forFields (λ field, visitTypeExpr (Field_Type field) info visit)
                      Fields
        | _ => skip
        end
      else skip
  | ValueSpec Names Type_ Values =>
      forEach (λ name,
        if decide (Name name = obj_name obj) then
          setDecl (obj_name obj) d ;;
          match Type_ with
          | NilExpr => skip
          | _ => visitTypeExpr Type_ info visit
          end ;;
          forEach (λ val, visitExpr val info visit) Values
        else skip) Names
  | ImportSpec _ _ => skip
  end.

Definition visitDecl (decl : Decl) : Cmd :=
  match decl with
  | FuncDecl _ Name_ _ Body =>
      if decide (Name Name_ = obj_name obj) then
        setDecl (obj_name obj) decl ;;
        match Body with
        | Some body =>
            Inspect (walkStmt (BlockStmt body)) (λ id, visit (resolve id))
        | None => skip
        end
      else skip
  | GenDecl Specs => forEach (visitSpec decl) Specs
  | BadDecl => skip
  end.

(** The two nested loops over [files] and [file.Decls]. *)
Definition expand : Cmd :=
  forEach (λ file, forEach visitDecl (Decls file)) files.
End Expand.

(** [visit]; [fuel] bounds the nesting of expansions, and is looked at
    only after the guard [obj == nil || visited[obj]]. *)
Fixpoint visit (fuel : nat) (obj : option Object) : Cmd :=
  λ st,
    match obj with
    | None => Done st
    | Some o =>
        if decide (o ∈ visited st) then Done st
        else match fuel with
             | 0 => OutOfFuel
             | S fuel' => expand (visit fuel') o (mark o st)
             end
    end.

(** The loop over [entryAST.Decls]. *)
Definition seed (fuel : nat) (entryDecls : list Decl) : Cmd :=
  forEach (λ decl, Inspect (walkDecl decl) (λ id, visit fuel (resolve id)))
          entryDecls.
End Closure.

(** [*packages.Package], as far as it is read. *)
Record Package := mkPackage { TypesInfo : Info; Syntax : list File }.

(** The two errors built with [fmt.Errorf]. *)
Inductive Error :=
| ErrLoad
| ErrNoEntry.

Inductive Outcome (A : Type) :=
| Ok (a : A)
| Err (e : Error)
| Panicked
| NoFuel.
Arguments Ok {A} a.
Arguments Err {A} e.
Arguments Panicked {A}.
Arguments NoFuel {A}.

(** The order in which [range] runs over a Go map is unspecified: some
    enumeration of the entries. *)
Record MapOrder := mkMapOrder {
  rangeOver : gmap string Decl → list (string * Decl);
  rangeOver_perm : ∀ m, rangeOver m ≡ₚ map_to_list m
}.

Definition emptyState : State := mkState ∅ ∅ ∅.

Section Collect.
(** [packages.Load(cfg, "file="+entryFile)] is the Resolver; [None] is
    its error. *)
Variable packages_Load : string → option (list Package).
Variable order : MapOrder.

Definition CollectUsedDeclarations (fuel : nat) (entryFile : string)
    : Outcome (gset string * list Decl) :=
  match packages_Load entryFile with
  | None | Some [] => Err ErrLoad
  | Some (pkg :: _) =>
      let info := TypesInfo pkg in
      let files := Syntax pkg in
      match find (λ f, bool_decide (Filename f = entryFile)) files with
      | None => Err ErrNoEntry
      | Some entryAST =>
          match seed info files fuel (Decls entryAST) emptyState with
          | Done st => Ok (used st, (rangeOver order (declMap st)).*2)
          | Panic => Panicked
          | OutOfFuel => NoFuel
          end
      end
  end.
End Collect.

(** ** The command-line driver: [main], [WriteFilteredSource], [autoFixImports]

    The file system is a state [FS] of an unknown type; the operating
    system, the parser, the printer and [imports.Process] are the fields
    of an environment.  Every call to one of them, and every line that
    [log.Println] prints, is appended to a journal. *)

Inductive Msg :=
| MsgNoInput
| MsgAnalysisFailed (e : Error)
| MsgHeader
| MsgName (name : string)
| MsgWriteFailed
| MsgCut (outPath : string).

Inductive Event :=
| EvLog (m : Msg)
| EvLoad (entryFile : string)
| EvReadFile (path : string)
| EvParseFile (path : string)
| EvMkdirAll (dir : string)
| EvCreate (path : string)
| EvFormat (path : string)
| EvProcess (path : string)
| EvWriteFile (path data : string).

(** The order in which [range] runs over the set [usedSymbols]. *)
Record NameOrder := mkNameOrder {
  rangeNames : gset string → list string;
  rangeNames_perm : ∀ s, rangeNames s ≡ₚ elements s
}.

Record Env (FS : Type) := mkEnv {
  (** [None] is an error, here and below; a pair holds the file system
      after the call and whether the call failed. *)
  packages_Load_at : FS → string → option (list Package);
  os_ReadFile : FS → string → option string;
  parser_ParseFile : string → string → option File;
  os_MkdirAll : FS → string → FS * bool;
  os_Create : FS → string → FS * bool;
  format_Node : FS → string → File → FS * bool;
  imports_Process : string → string → option string;
  os_WriteFile : FS → string → string → FS * bool;
  filepath_Dir : string → string;
  filepath_Base : string → string;
  filepath_Join : string → string → string
}.
Arguments packages_Load_at {FS} _ _ _.
Arguments os_ReadFile {FS} _ _ _.
Arguments parser_ParseFile {FS} _ _ _.
Arguments os_MkdirAll {FS} _ _ _.
Arguments os_Create {FS} _ _ _.
Arguments format_Node {FS} _ _ _ _.
Arguments imports_Process {FS} _ _ _.
Arguments os_WriteFile {FS} _ _ _ _.
Arguments filepath_Dir {FS} _ _.
Arguments filepath_Base {FS} _ _.
Arguments filepath_Join {FS} _ _ _.

Record World (FS : Type) := mkWorld { fs : FS; journal : list Event }.
Arguments mkWorld {FS} _ _.
Arguments fs {FS} _.
Arguments journal {FS} _.

Section Driver.
Context {FS : Type}.
Variable env : Env FS.
Variable order : MapOrder.
Variable nameOrder : NameOrder.

Definition record (ev : Event) (w : World FS) : World FS :=
  mkWorld (fs w) (journal w ++ [ev]).

Definition logAll (ms : list Msg) (w : World FS) : World FS :=
  mkWorld (fs w) (journal w ++ map EvLog ms).

(** The result is the world after the call and whether it returned an
    error. *)
Definition WriteFilteredSource (entryFile outFile : string) (decls : list Decl)
    (w : World FS) : World FS * bool :=
  let w := record (EvReadFile entryFile) w in
  match os_ReadFile env (fs w) entryFile with
  | None => (w, true)
  | Some src =>
      let w := record (EvParseFile entryFile) w in
      match parser_ParseFile env entryFile src with
      | None => (w, true)
      | Some file =>
          let file := mkFile (Filename file) decls in
          let dir := filepath_Dir env outFile in
          let '(fs1, failed) := os_MkdirAll env (fs w) dir in
          let w := mkWorld fs1 (journal w ++ [EvMkdirAll dir]) in
          if failed then (w, true)
          else
            let '(fs2, failed) := os_Create env (fs w) outFile in
            let w := mkWorld fs2 (journal w ++ [EvCreate outFile]) in
            if failed then (w, true)
            else
              let '(fs3, failed) := format_Node env (fs w) outFile file in
              (mkWorld fs3 (journal w ++ [EvFormat outFile]), failed)
      end
  end.

Definition autoFixImports (filePath : string) (w : World FS) : World FS * bool :=
  let w := record (EvReadFile filePath) w in
  match os_ReadFile env (fs w) filePath with
  | None => (w, true)
  | Some src =>
      let w := record (EvProcess filePath) w in
      match imports_Process env filePath src with
      | None => (w, true)
      | Some fixed =>
          let '(fs1, failed) := os_WriteFile env (fs w) filePath fixed in
          (mkWorld fs1 (journal w ++ [EvWriteFile filePath fixed]), failed)
      end
  end.

Inductive Exit :=
| Returned (w : World FS)
| Crashed
| Starved.

(** [main], after [flag.Parse()] has produced [inputPath] and [outputDir]. *)
Definition main (fuel : nat) (inputPath outputDir : string) (w : World FS) : Exit :=
  if decide (inputPath = "") then Returned (record (EvLog MsgNoInput) w)
  else
    let w1 := record (EvLoad inputPath) w in
    match CollectUsedDeclarations (packages_Load_at env (fs w)) order fuel inputPath with
    | Err e => Returned (record (EvLog (MsgAnalysisFailed e)) w1)
    | Panicked => Crashed
    | NoFuel => Starved
    | Ok (usedSymbols, decls) =>
        let w2 := logAll (MsgHeader :: map MsgName (rangeNames nameOrder usedSymbols)) w1 in
        let outPath := filepath_Join env outputDir (filepath_Base env inputPath) in
        match WriteFilteredSource inputPath outPath decls w2 with
        | (w3, true) => Returned (record (EvLog MsgWriteFailed) w3)
        | (w3, false) =>
            let '(w4, _) := autoFixImports outPath w3 in
            Returned (record (EvLog (MsgCut outPath)) w4)
        end
    end.
End Driver.

(** ** The vocabulary of the claims *)

(** The identifiers that [visit] compares with [obj.Name()] when it scans a
    declaration: the name of a function or method, of a type, of a variable
    or constant.  An import declaration has none. *)
Definition specIdents (spec : Spec) : list Ident :=
  match spec with
  | TypeSpec Name_ _ _ => [Name_]
  | ValueSpec Names _ _ => Names
  | ImportSpec _ _ => []
  end.

Definition declIdents (d : Decl) : list Ident :=
  match d with
  | FuncDecl _ Name_ _ _ => [Name_]
  | GenDecl Specs => flat_map specIdents Specs
  | BadDecl => []
  end.

Definition declNames (d : Decl) : list string := map Name (declIdents d).

(** The expression forms that have a case of their own with a body in the
    type switch of [visitExpr]. *)
Definition handledByVisitExpr (e : Expr) : bool :=
  match e with
  | CompositeLit _ _ | CallExpr _ _ | UnaryExpr _ | BinaryExpr _ _
  | ParenExpr _ | KeyValueExpr _ _ | IdentExpr _ | SelectorExpr _ _
  | IndexExpr _ _ | SliceExpr _ _ _ _ | TypeAssertExpr _ _ => true
  | _ => false
  end.



(** ** Scenarios: small compilation units, as the Resolver delivers them *)

(** The map order that lists the entries by key. *)
Definition stdOrder : MapOrder := mkMapOrder map_to_list (λ m, reflexivity _).

(** A function type [func()], as the parser builds it: an empty parameter
    list and no result list. *)
Definition funcNoResult : FuncType := mkFuncType None (Some []) None.

(** [name()] *)
Definition callStmt (p : positive) (name : string) : Stmt :=
  ExprStmt (CallExpr (IdentExpr (mkIdent p name)) []).

(** A unit with a cycle: [entry.go] holds [func Entry() { A() }], [lib.go]
    holds [func A() { B() }] and [func B() { A() }]. *)
Definition cyc_Entry : Object := mkObject 1 "Entry".
Definition cyc_A : Object := mkObject 2 "A".
Definition cyc_B : Object := mkObject 3 "B".

Definition cyc_info : Info :=
  mkInfo (list_to_map [(11%positive, cyc_A); (21%positive, cyc_B); (31%positive, cyc_A)])
         (list_to_map [(10%positive, cyc_Entry); (20%positive, cyc_A); (30%positive, cyc_B)]).

Definition cyc_pkg : Package :=
  mkPackage cyc_info
    [mkFile "entry.go"
       [FuncDecl None (mkIdent 10 "Entry") funcNoResult (Some [callStmt 11 "A"])];
     mkFile "lib.go"
       [FuncDecl None (mkIdent 20 "A") funcNoResult (Some [callStmt 21 "B"]);
        FuncDecl None (mkIdent 30 "B") funcNoResult (Some [callStmt 31 "A"])]].

Definition cyc_load (entryFile : string) : option (list Package) := Some [cyc_pkg].

(** A unit with an interface: [entry.go] holds [var X I]; [lib.go] holds
    [type I interface { M() }], [type T struct{}] and [func (T) M() {}]. *)
Definition ifc_X : Object := mkObject 1 "X".
Definition ifc_I : Object := mkObject 2 "I".
Definition ifc_IM : Object := mkObject 3 "M".
Definition ifc_T : Object := mkObject 4 "T".
Definition ifc_TM : Object := mkObject 5 "M".

Definition ifc_info : Info :=
  mkInfo (list_to_map [(11%positive, ifc_I); (41%positive, ifc_T)])
         (list_to_map [(10%positive, ifc_X); (20%positive, ifc_I);
                       (21%positive, ifc_IM); (30%positive, ifc_T);
                       (40%positive, ifc_TM)]).

Definition ifc_entry : File :=
  mkFile "entry.go"
    [GenDecl [ValueSpec [mkIdent 10 "X"] (IdentExpr (mkIdent 11 "I")) []]].

Definition ifc_lib : File :=
  mkFile "lib.go"
    [GenDecl [TypeSpec (mkIdent 20 "I") None
                (InterfaceType (Some [mkField [mkIdent 21 "M"]
                                        (FuncTypeExpr funcNoResult)]))];
     GenDecl [TypeSpec (mkIdent 30 "T") None (StructType (Some []))];
     FuncDecl (Some [mkField [] (IdentExpr (mkIdent 41 "T"))]) (mkIdent 40 "M")
              funcNoResult (Some [])].

Definition ifc_pkg : Package := mkPackage ifc_info [ifc_entry; ifc_lib].

Definition ifc_load (entryFile : string) : option (list Package) := Some [ifc_pkg].

(** A unit whose entry file declares the interface: [entry.go] holds
    [type I interface { M() }]; [lib.go] holds [type T struct{}] and
    [func (T) M() {}].  The Resolver gives the method of the interface
    and the method of [T] two objects, both named [M]. *)
Definition eif_I : Object := mkObject 1 "I".
Definition eif_IM : Object := mkObject 2 "M".
Definition eif_T : Object := mkObject 3 "T".
Definition eif_TM : Object := mkObject 4 "M".

Definition eif_info : Info :=
  mkInfo (list_to_map [(31%positive, eif_T)])
         (list_to_map [(10%positive, eif_I); (11%positive, eif_IM);
                       (20%positive, eif_T); (30%positive, eif_TM)]).

Definition eif_declI : Decl :=
  GenDecl [TypeSpec (mkIdent 10 "I") None
             (InterfaceType (Some [mkField [mkIdent 11 "M"]
                                     (FuncTypeExpr funcNoResult)]))].

Definition eif_methodM : Decl :=
  FuncDecl (Some [mkField [] (IdentExpr (mkIdent 31 "T"))]) (mkIdent 30 "M")
           funcNoResult (Some []).

Definition eif_entry : File := mkFile "entry.go" [eif_declI].

Definition eif_lib : File :=
  mkFile "lib.go"
    [GenDecl [TypeSpec (mkIdent 20 "T") None (StructType (Some []))];
     eif_methodM].

Definition eif_pkg : Package := mkPackage eif_info [eif_entry; eif_lib].

Definition eif_load (entryFile : string) : option (list Package) := Some [eif_pkg].

(** A unit with a name collision: [entry.go] holds [type T struct{}],
    the method [func (T) Run() {}] and the function [func Run() {}]. *)
Definition col_T : Object := mkObject 1 "T".
Definition col_RunMethod : Object := mkObject 2 "Run".
Definition col_Run : Object := mkObject 3 "Run".

Definition col_info : Info :=
  mkInfo (list_to_map [(21%positive, col_T)])
         (list_to_map [(10%positive, col_T); (20%positive, col_RunMethod);
                       (30%positive, col_Run)]).

Definition col_typeT : Decl :=
  GenDecl [TypeSpec (mkIdent 10 "T") None (StructType (Some []))].
Definition col_methodRun : Decl :=
  FuncDecl (Some [mkField [] (IdentExpr (mkIdent 21 "T"))]) (mkIdent 20 "Run")
           funcNoResult (Some []).
Definition col_funcRun : Decl :=
  FuncDecl None (mkIdent 30 "Run") funcNoResult (Some []).

Definition col_entry : File :=
  mkFile "entry.go" [col_typeT; col_methodRun; col_funcRun].

Definition col_pkg : Package := mkPackage col_info [col_entry].

Definition col_load (entryFile : string) : option (list Package) := Some [col_pkg].

(** The map order that lists the entries by key, backwards. *)
Definition revOrder : MapOrder :=
  mkMapOrder (λ m, reverse (map_to_list m)) (λ m, reverse_Permutation _).

(** A unit with a selector in an initializer: [entry.go] holds
    [func Entry() { _ = V }]; [lib.go] holds [var V = a.b], [var a S] and
    [type S struct { b int }]. *)
Definition sel_Entry : Object := mkObject 1 "Entry".
Definition sel_V : Object := mkObject 2 "V".
Definition sel_a : Object := mkObject 3 "a".
Definition sel_b : Object := mkObject 4 "b".
Definition sel_S : Object := mkObject 5 "S".
Definition sel_int : Object := mkObject 6 "int".

Definition sel_info : Info :=
  mkInfo (list_to_map [(12%positive, sel_V); (21%positive, sel_a);
                       (22%positive, sel_b); (31%positive, sel_S);
                       (42%positive, sel_int)])
         (list_to_map [(10%positive, sel_Entry); (20%positive, sel_V);
                       (30%positive, sel_a); (40%positive, sel_S);
                       (41%positive, sel_b)]).

Definition sel_init : Expr :=
  SelectorExpr (IdentExpr (mkIdent 21 "a")) (mkIdent 22 "b").

Definition sel_varV : Decl := GenDecl [ValueSpec [mkIdent 20 "V"] NilExpr [sel_init]].

Definition sel_pkg : Package :=
  mkPackage sel_info
    [mkFile "entry.go"
       [FuncDecl None (mkIdent 10 "Entry") funcNoResult
          (Some [AssignStmt [IdentExpr (mkIdent 11 "_")]
                            [IdentExpr (mkIdent 12 "V")]])];
     mkFile "lib.go"
       [sel_varV;
        GenDecl [ValueSpec [mkIdent 30 "a"] (IdentExpr (mkIdent 31 "S")) []];
        GenDecl [TypeSpec (mkIdent 40 "S") None
                   (StructType (Some [mkField [mkIdent 41 "b"]
                                        (IdentExpr (mkIdent 42 "int"))]))]]].

Definition sel_load (entryFile : string) : option (list Package) := Some [sel_pkg].

Definition sel_used : gset string := {["Entry"; "V"; "a"; "S"; "int"]}.

(** A self-contained entry file: [entry.go] holds [func F() { F() }]. *)
Definition rec_F : Object := mkObject 1 "F".

Definition rec_info : Info :=
  mkInfo (list_to_map [(11%positive, rec_F)]) (list_to_map [(10%positive, rec_F)]).

Definition rec_entry : File :=
  mkFile "entry.go"
    [FuncDecl None (mkIdent 10 "F") funcNoResult (Some [callStmt 11 "F"])].

Definition rec_pkg : Package := mkPackage rec_info [rec_entry].







(** A struct with a callback field: [entry.go] holds
    [type Handler struct { Callback func() }]. *)
Definition fn_Handler : Object := mkObject 1 "Handler".
Definition fn_Callback : Object := mkObject 2 "Callback".

Definition fn_info : Info :=
  mkInfo ∅ (list_to_map [(10%positive, fn_Handler); (11%positive, fn_Callback)]).

Definition fn_entry : File :=
  mkFile "entry.go"
    [GenDecl [TypeSpec (mkIdent 10 "Handler") None
                (StructType (Some [mkField [mkIdent 11 "Callback"]
                                     (FuncTypeExpr funcNoResult)]))]].

Definition fn_pkg : Package := mkPackage fn_info [fn_entry].

Definition fn_load (entryFile : string) : option (list Package) := Some [fn_pkg].

(** An environment over a file system that maps paths to contents.  Every
    part succeeds; [writeFails] says whether [os.WriteFile] truncates the
    file and then fails, [processFails] whether [imports.Process] fails. *)
Definition mapEnv (processFails writeFails : bool) : Env (gmap string string) :=
  mkEnv (gmap string string)
    (λ _ _, Some [rec_pkg])
    (λ fs path, fs !! path)
    (λ _ _, Some rec_entry)
    (λ fs _, (fs, false))
    (λ fs path, (<[path := ""]> fs, false))
    (λ fs path _, (<[path := "package main; func F() { F() }"]> fs, false))
    (λ _ src, if processFails then None else Some src)
    (λ fs path data,
       if writeFails then (<[path := ""]> fs, true) else (<[path := data]> fs, false))
    (λ _, "output")
    (λ path, path)
    (λ dir base, dir +:+ "/" +:+ base).

Definition stdNames : NameOrder := mkNameOrder elements (λ s, reflexivity _).

Definition world0 : World (gmap string string) :=
  mkWorld {["entry.go" := "package main; func F() { F() }"]} [].

Definition journalWritten : list Event :=
  [EvLoad "entry.go"; EvLog MsgHeader; EvLog (MsgName "F");
   EvReadFile "entry.go"; EvParseFile "entry.go"; EvMkdirAll "output";
   EvCreate "output/entry.go"; EvFormat "output/entry.go"].

Definition worldWritten : World (gmap string string) :=
  mkWorld (<["output/entry.go" := "package main; func F() { F() }"]> (fs world0))
          journalWritten.

(** * Verification *)

(** ** Commands up to extensional equality *)

Lemma seq_ext (c1 c1' c2 c2' : Cmd) st :
  c1 st = c1' st → (∀ st', c2 st' = c2' st') → (c1 ;; c2) st = (c1' ;; c2') st.
Proof. intros H1 H2. unfold seq. rewrite H1. destruct (c1' st); auto. Qed.

Lemma forEach_ext {A} (f g : A → Cmd) (l : list A) :
  Forall (λ x, ∀ st, f x st = g x st) l → ∀ st, forEach f l st = forEach g l st.
Proof.
  induction 1 as [|x l Hx _ IH]; intros st; simpl; [done|].
  by apply seq_ext.
Qed.

Lemma forEach_app {A} (f : A → Cmd) (l1 l2 : list A) st :
  forEach f (l1 ++ l2) st = (forEach f l1 ;; forEach f l2) st.
Proof.
  revert st. induction l1 as [|x l1 IH]; intros st; simpl; [done|].
  unfold seq. destruct (f x st); auto.
Qed.

Lemma forEach_flat_map {A B} (f : B → Cmd) (g : A → list B) (l : list A) st :
  forEach f (flat_map g l) st = forEach (λ x, forEach f (g x)) l st.
Proof.
  revert st. induction l as [|x l IH]; intros st; simpl; [done|].
  rewrite forEach_app. by apply seq_ext.
Qed.

Lemma forEach_map {A B} (f : B → Cmd) (g : A → B) (l : list A) st :
  forEach f (map g l) st = forEach (λ x, f (g x)) l st.
Proof.
  revert st. induction l as [|x l IH]; intros st; simpl; [done|].
  by apply seq_ext.
Qed.

Lemma seq_skip_r (c : Cmd) st : (c ;; skip) st = c st.
Proof. unfold seq, skip. by destruct (c st). Qed.

(** ** Induction over expressions through their immediate children *)

Definition fieldTypes (p : option (list Field)) : list Expr :=
  match p with
  | None => []
  | Some l => map Field_Type l
  end.

Definition children (e : Expr) : list Expr :=
  match e with
  | NilExpr | BadExpr | IdentExpr _ | BasicLit _ | FuncLit _ _ => []
  | Ellipsis Elt => [Elt]
  | CompositeLit Type_ Elts => Type_ :: Elts
  | ParenExpr X => [X]
  | SelectorExpr X _ => [X]
  | IndexExpr X Index => [X; Index]
  | IndexListExpr X Indices => X :: Indices
  | SliceExpr X Low High Max => [X; Low; High; Max]
  | TypeAssertExpr X Type_ => [X; Type_]
  | CallExpr Fun Args => Fun :: Args
  | StarExpr X => [X]
  | UnaryExpr X => [X]
  | BinaryExpr X Y => [X; Y]
  | KeyValueExpr Key Value => [Key; Value]
  | ArrayType Len Elt => [Len; Elt]
  | StructType Fields => fieldTypes Fields
  | FuncTypeExpr (mkFuncType TypeParams Params Results) =>
      fieldTypes TypeParams ++ fieldTypes Params ++ fieldTypes Results
  | InterfaceType Methods => fieldTypes Methods
  | MapType Key Value => [Key; Value]
  | ChanType Value => [Value]
  end.

Lemma Expr_children_ind (P : Expr → Prop) :
  (∀ e, Forall P (children e) → P e) → ∀ e, P e.
Proof.
  intros step. fix IH 1. intros e. apply step.
  destruct e as [| | | | | | | | | | | | | | | | | | | | [tp ps rs] | | |]; simpl;
    repeat first
      [ apply Forall_nil_2
      | apply Forall_cons_2; [apply IH|]
      | apply Forall_app_2
      | match goal with
        | |- Forall _ (fieldTypes ?p) =>
            destruct p as [l|]; simpl; [|apply Forall_nil_2];
            induction l as [|[names t] l IHl]; simpl;
            [apply Forall_nil_2 | apply Forall_cons_2; [apply IH | apply IHl]]
        | |- Forall _ ?l =>
            is_var l; induction l as [|x l IHl];
            [apply Forall_nil_2 | apply Forall_cons_2; [apply IH | apply IHl]]
        end ].
Qed.

(** ** The walkers as walks

    [typeWalk] and [exprWalk] list, in order, the identifiers that
    [visitTypeExpr] and [visitExpr] look up in [info.Uses], and the place
    where a nil [*ast.FieldList] is dereferenced. *)

Definition derefFields (f : Field → list WalkEvent) (p : option (list Field))
    : list WalkEvent :=
  match p with
  | None => [WalkPanic]
  | Some l => flat_map f l
  end.

Fixpoint typeWalk (expr : Expr) : list WalkEvent :=
  match expr with
  | IdentExpr e => [SeeIdent e]
  | StarExpr X => typeWalk X
  | ArrayType _ Elt => typeWalk Elt
  | MapType Key Value => typeWalk Key ++ typeWalk Value
  | SelectorExpr X _ => typeWalk X
  | FuncTypeExpr (mkFuncType _ Params Results) =>
      derefFields (λ field, typeWalk (Field_Type field)) Params ++
      derefFields (λ field, typeWalk (Field_Type field)) Results
  | ChanType Value => typeWalk Value
  | Ellipsis Elt => typeWalk Elt
  | _ => []
  end.

Fixpoint exprWalk (expr : Expr) : list WalkEvent :=
  match expr with
  | CompositeLit Type_ Elts => typeWalk Type_ ++ flat_map exprWalk Elts
  | CallExpr Fun Args => exprWalk Fun ++ flat_map exprWalk Args
  | UnaryExpr X => exprWalk X
  | BinaryExpr X Y => exprWalk X ++ exprWalk Y
  | ParenExpr X => exprWalk X
  | KeyValueExpr Key Value => exprWalk Key ++ exprWalk Value
  | IdentExpr e => [SeeIdent e]
  | SelectorExpr X _ => exprWalk X
  | IndexExpr X Index => exprWalk X ++ exprWalk Index
  | SliceExpr X Low High Max =>
      exprWalk X ++ exprWalk Low ++ exprWalk High ++ exprWalk Max
  | TypeAssertExpr X _ => exprWalk X
  | _ => []
  end.

Lemma Inspect_app evs1 evs2 f st :
  Inspect (evs1 ++ evs2) f st = (Inspect evs1 f ;; Inspect evs2 f) st.
Proof. apply forEach_app. Qed.

Lemma Inspect_flat_map {A} (g : A → list WalkEvent) (l : list A) f st :
  Inspect (flat_map g l) f st = forEach (λ x, Inspect (g x) f) l st.
Proof. apply forEach_flat_map. Qed.

Lemma forFields_walk (g : Field → list WalkEvent) (body : Field → Cmd) f p st :
  Forall (λ e, ∀ st, body e st = Inspect (g e) f st) (default [] p) →
  forFields body p st = Inspect (derefFields g p) f st.
Proof.
  destruct p as [l|]; simpl; [|done]. intros H.
  rewrite Inspect_flat_map. by apply forEach_ext.
Qed.

Lemma Forall_fieldTypes (P : Expr → Prop) p :
  Forall P (fieldTypes p) → Forall (λ f, P (Field_Type f)) (default [] p).
Proof. destruct p; simpl; [|done]. by rewrite Forall_map. Qed.

Lemma visitTypeExpr_walk info visit expr :
  ∀ st, visitTypeExpr expr info visit st =
        Inspect (typeWalk expr) (λ id, visit (Uses info !! ident_ptr id)) st.
Proof.
  induction expr as [e IH] using Expr_children_ind.
  destruct e as [| | | | | | | | | | | | | | | | | | | | [tp ps rs] | | |];
    simpl in IH; intros st; simpl; try done;
    repeat match goal with
           | H : Forall _ (_ :: _) |- _ => apply Forall_cons in H as [? H]
           | H : Forall _ (_ ++ _) |- _ => apply Forall_app in H as [? H]
           end; try done.
  - by rewrite seq_skip_r.
  - apply Forall_fieldTypes in H0, IH.
    rewrite Inspect_app. apply seq_ext; [|intros st']; by apply forFields_walk.
  - rewrite Inspect_app. by apply seq_ext.
Qed.

(** The tests [e.Low != nil] of [visitExpr] and [s.Type != nil] of [visit]
    guard calls that do nothing on [nil] anyway. *)
Lemma visitExpr_nil_guard info visit e :
  match e with NilExpr => skip | _ => visitExpr e info visit end =
  visitExpr e info visit.
Proof. by destruct e. Qed.

Lemma visitTypeExpr_nil_guard info visit e :
  match e with NilExpr => skip | _ => visitTypeExpr e info visit end =
  visitTypeExpr e info visit.
Proof. by destruct e. Qed.

Lemma visitExpr_walk info visit expr :
  ∀ st, visitExpr expr info visit st =
        Inspect (exprWalk expr) (λ id, visit (Uses info !! ident_ptr id)) st.
Proof.
  induction expr as [e IH] using Expr_children_ind.
  destruct e; simpl in IH; intros st; simpl; try done;
    repeat match goal with
           | H : Forall _ (_ :: _) |- _ => apply Forall_cons in H as [? H]
           end; try done;
    repeat first
      [ rewrite Inspect_app
      | apply seq_ext; [|intros ?]
      | apply visitTypeExpr_walk
      | rewrite Inspect_flat_map; by apply forEach_ext
      | by rewrite seq_skip_r
      | rewrite visitExpr_nil_guard
      | done ].
Qed.

(** ** An expansion as a flat sequence of operations

    What [visit] does to an unvisited object, after marking it, is a fixed
    sequence of assignments to [declMap] and of recursive calls, which
    depends on the object through its name only. *)

Inductive Op :=
| OVisit (ref : option Object)
| OSet (name : string) (d : Decl)
| OPanic.

Section Ops.
Variable info : Info.
Variable files : list File.

Definition usesOf (id : Ident) : option Object := Uses info !! ident_ptr id.

Definition runOp (visit : option Object → Cmd) (op : Op) : Cmd :=
  match op with
  | OVisit ref => visit ref
  | OSet name d => setDecl name d
  | OPanic => panic
  end.

Definition runOps (visit : option Object → Cmd) : list Op → Cmd :=
  forEach (runOp visit).

Definition walkOps (res : Ident → option Object) (evs : list WalkEvent)
    : list Op :=
  map (λ ev, match ev with
             | SeeIdent id => OVisit (res id)
             | WalkPanic => OPanic
             end) evs.

Definition specOps (n : string) (d : Decl) (spec : Spec) : list Op :=
  match spec with
  | TypeSpec Name_ _ Type_ =>
      if decide (Name Name_ = n) then
        OSet n d ::
        match Type_ with
        | StructType Fields =>
            walkOps usesOf
              (derefFields (λ field, typeWalk (Field_Type field)) Fields)
        | _ => []
        end
      else []
  | ValueSpec Names Type_ Values =>
      flat_map (λ name,
        if decide (Name name = n) then
          OSet n d :: walkOps usesOf (typeWalk Type_ ++ flat_map exprWalk Values)
        else []) Names
  | ImportSpec _ _ => []
  end.

Definition bodyWalk (Body : option (list Stmt)) : list WalkEvent :=
  match Body with
  | Some body => walkStmt (BlockStmt body)
  | None => []
  end.

Definition declOps (n : string) (d : Decl) : list Op :=
  match d with
  | FuncDecl _ Name_ _ Body =>
      if decide (Name Name_ = n) then
        OSet n d :: walkOps (resolve info) (bodyWalk Body)
      else []
  | GenDecl Specs => flat_map (specOps n d) Specs
  | BadDecl => []
  end.

(** Every declaration of the compilation unit, in the order of the scan. *)
Definition allDecls : list Decl := flat_map Decls files.

Definition expandOps (n : string) : list Op := flat_map (declOps n) allDecls.

Definition seedOps (entryDecls : list Decl) : list Op :=
  walkOps (resolve info) (flat_map walkDecl entryDecls).

Lemma runOps_app visit ops1 ops2 st :
  runOps visit (ops1 ++ ops2) st = (runOps visit ops1 ;; runOps visit ops2) st.
Proof. apply forEach_app. Qed.

Lemma Inspect_ops visit res evs st :
  Inspect evs (λ id, visit (res id)) st = runOps visit (walkOps res evs) st.
Proof.
  unfold runOps, walkOps, Inspect. rewrite forEach_map.
  apply forEach_ext, Forall_forall. by intros [].
Qed.

Lemma visitSpec_ops visit obj d spec st :
  visitSpec info visit obj d spec st =
  runOps visit (specOps (obj_name obj) d spec) st.
Proof.
  destruct spec as [|Names Type_ Values|Name_ tp Type_]; simpl; [done| |].
  - unfold runOps. rewrite forEach_flat_map. revert st.
    apply forEach_ext, Forall_forall. intros name _ st.
    case_decide; [|done]. simpl. apply seq_ext; [done|]. intros st'.
    rewrite visitTypeExpr_nil_guard. unfold walkOps. rewrite map_app.
    rewrite forEach_app. apply seq_ext.
    + rewrite visitTypeExpr_walk. apply Inspect_ops.
    + intros st''. etrans; [|apply Inspect_ops]. rewrite Inspect_flat_map.
      apply forEach_ext, Forall_forall. intros val _ st3.
      apply visitExpr_walk.
  - case_decide; [|done]. simpl. apply seq_ext; [done|]. intros st'.
    destruct Type_; try done.
    etrans; [|apply Inspect_ops]. apply forFields_walk, Forall_forall.
    intros f _ st''. apply visitTypeExpr_walk.
Qed.

Lemma visitDecl_ops visit obj d st :
  visitDecl info visit obj d st = runOps visit (declOps (obj_name obj) d) st.
Proof.
  destruct d as [|Specs|Recv Name_ Type_ Body]; simpl; [done| |].
  - unfold runOps. rewrite forEach_flat_map. revert st.
    apply forEach_ext, Forall_forall. intros spec _ st. apply visitSpec_ops.
  - case_decide; [|done]. simpl. apply seq_ext; [done|]. intros st'.
    destruct Body; [|done]. apply Inspect_ops.
Qed.

Lemma expand_ops visit obj st :
  expand info files visit obj st = runOps visit (expandOps (obj_name obj)) st.
Proof.
  unfold expand, expandOps, allDecls, runOps.
  rewrite !forEach_flat_map. revert st.
  apply forEach_ext, Forall_forall. intros file _ st. revert st.
  apply forEach_ext, Forall_forall. intros d _ st. apply visitDecl_ops.
Qed.

Lemma seed_ops fuel entryDecls st :
  seed info files fuel entryDecls st =
  runOps (visit info files fuel) (seedOps entryDecls) st.
Proof.
  unfold seed, seedOps. etrans; [|apply Inspect_ops].
  rewrite Inspect_flat_map. done.
Qed.

(** The equation of [visit] on an unvisited object. *)
Lemma visit_unfold fuel o st :
  o ∉ visited st →
  visit info files (S fuel) (Some o) st =
  runOps (visit info files fuel) (expandOps (obj_name o)) (mark o st).
Proof. intros Hn. simpl. rewrite decide_False by done. apply expand_ops. Qed.

Lemma visit_visited fuel o st :
  o ∈ visited st → visit info files fuel (Some o) st = Done st.
Proof. intros Hv. destruct fuel; simpl; by rewrite decide_True. Qed.

Lemma visit_nil fuel st : visit info files fuel None st = Done st.
Proof. by destruct fuel. Qed.
End Ops.

(** ** Reasoning rules for operation sequences *)

Definition setDeclState (n : string) (d : Decl) (st : State) : State :=
  mkState (visited st) (used st) (<[n := d]> (declMap st)).

Section Rules.
Variable info : Info.
Variable files : list File.

#[local] Abbreviation visit := (visit info files).
#[local] Abbreviation expandOps := (expandOps info files).
#[local] Abbreviation seedOps := (seedOps info).

Lemma runOps_cons visit' op ops st :
  runOps visit' (op :: ops) st = (runOp visit' op ;; runOps visit' ops) st.
Proof. done. Qed.

Lemma runOps_Done_cons visit' op ops st st' :
  runOps visit' (op :: ops) st = Done st' →
  ∃ st1, runOp visit' op st = Done st1 ∧ runOps visit' ops st1 = Done st'.
Proof.
  rewrite runOps_cons. unfold seq. destruct (runOp visit' op st); [|done..].
  eauto.
Qed.

Lemma runOps_Done_app visit' ops1 ops2 st st' :
  runOps visit' (ops1 ++ ops2) st = Done st' →
  ∃ st1, runOps visit' ops1 st = Done st1 ∧ runOps visit' ops2 st1 = Done st'.
Proof.
  rewrite runOps_app. unfold seq. destruct (runOps visit' ops1 st); [|done..].
  eauto.
Qed.

(** An invariant kept by every operation of a sequence is kept by the
    sequence. *)
Lemma runOps_hoare (I : State → Prop) visit' ops :
  (∀ ref st st', OVisit ref ∈ ops → I st → visit' ref st = Done st' → I st') →
  (∀ n d st, OSet n d ∈ ops → I st → I (setDeclState n d st)) →
  ∀ st st', I st → runOps visit' ops st = Done st' → I st'.
Proof.
  induction ops as [|op ops IH]; intros Hv Hs st st' HI Hrun.
  - by inversion Hrun; subst.
  - apply runOps_Done_cons in Hrun as (st1 & H1 & H2).
    eapply (IH (λ r s s' Hin, Hv r s s' (list_elem_of_further _ _ _ Hin))
               (λ n d s Hin, Hs n d s (list_elem_of_further _ _ _ Hin))); [|done].
    destruct op as [ref|n d|]; simpl in H1.
    + eapply Hv; [left|done..].
    + inversion H1; subst. apply Hs; [left|done].
    + done.
Qed.

(** A sequence that finishes contains no panic, and ran every operation. *)
Lemma runOps_Done_no_panic visit' ops st st' :
  runOps visit' ops st = Done st' → OPanic ∉ ops.
Proof.
  revert st. induction ops as [|op ops IH]; intros st Hrun.
  - apply not_elem_of_nil.
  - apply runOps_Done_cons in Hrun as (st1 & H1 & H2).
    apply not_elem_of_cons. split; [|by eapply IH].
    by destruct op.
Qed.

(** The recursion needs no fuel where it runs out of none. *)
Lemma runOps_mono v1 v2 ops :
  (∀ ref st, v1 ref st ≠ OutOfFuel → v2 ref st = v1 ref st) →
  ∀ st, runOps v1 ops st ≠ OutOfFuel → runOps v2 ops st = runOps v1 ops st.
Proof.
  intros Hv. induction ops as [|op ops IH]; intros st Hrun; [done|].
  rewrite !runOps_cons in *. unfold seq in *.
  assert (runOp v2 op st = runOp v1 op st) as ->.
  { destruct op; simpl in *; [|done..]. apply Hv.
    intros E. by rewrite E in Hrun. }
  destruct (runOp v1 op st); [|done..]. by apply IH.
Qed.

Lemma visit_fuel_mono (fuel : nat) :
  ∀ (fuel' : nat) ref st, (fuel ≤ fuel')%nat → visit fuel ref st ≠ OutOfFuel →
                  visit fuel' ref st = visit fuel ref st.
Proof.
  induction fuel as [|fuel IH]; intros fuel' [o|] st Hle Hrun;
    try by rewrite !visit_nil.
  - simpl in Hrun. case_decide; [|done]. by rewrite !visit_visited.
  - destruct (decide (o ∈ visited st)) as [Hv|Hv]; [by rewrite !visit_visited|].
    destruct fuel' as [|fuel']; [lia|].
    rewrite visit_unfold in Hrun by done. rewrite !visit_unfold by done.
    apply runOps_mono; [|done]. intros ref st1. apply IH. lia.
Qed.

(** [visited] and [used] only grow. *)
Definition grows (st st' : State) : Prop :=
  visited st ⊆ visited st' ∧ used st ⊆ used st'.

Lemma visit_grows fuel :
  ∀ ref st st', visit fuel ref st = Done st' → grows st st'.
Proof.
  induction fuel as [|fuel IH]; intros [o|] st st'; rewrite ?visit_nil;
    try by (intros [= <-]).
  - simpl. case_decide; [|done]. by intros [= <-].
  - destruct (decide (o ∈ visited st)) as [Hv|Hv].
    { rewrite visit_visited by done. by intros [= <-]. }
    rewrite visit_unfold by done. intros Hrun.
    eapply (runOps_hoare (grows st)) in Hrun; [done| | |].
    + intros ref s s' _ [] Hs. apply IH in Hs as []. split; set_solver.
    + by intros n d s _ [].
    + split; simpl; set_solver.
Qed.

Lemma runOps_grows fuel ops st st' :
  runOps (visit fuel) ops st = Done st' → grows st st'.
Proof.
  apply (runOps_hoare (grows st)); [| |done].
  - intros ref s s' _ [] Hs. apply visit_grows in Hs as []. split; set_solver.
  - by intros n d s _ [].
Qed.

(** After a call the argument is visited. *)
Lemma visit_arg_visited fuel o st st' :
  visit fuel (Some o) st = Done st' → o ∈ visited st'.
Proof.
  destruct (decide (o ∈ visited st)) as [Hv|Hv].
  { rewrite visit_visited by done. by intros [= <-]. }
  destruct fuel as [|fuel]; [simpl; by rewrite decide_False|].
  rewrite visit_unfold by done. intros [Hg _]%runOps_grows.
  apply Hg. simpl. set_solver.
Qed.

(** Every object handed to a recursive call of a finished sequence is
    visited at its end. *)
Lemma runOps_targets_visited fuel ops st st' o :
  runOps (visit fuel) ops st = Done st' → OVisit (Some o) ∈ ops →
  o ∈ visited st'.
Proof.
  revert st. induction ops as [|op ops IH]; intros st Hrun Hin.
  - by apply elem_of_nil in Hin.
  - apply runOps_Done_cons in Hrun as (st1 & H1 & H2).
    apply elem_of_cons in Hin as [<-|Hin]; [|by eapply IH].
    simpl in H1. apply visit_arg_visited in H1.
    apply runOps_grows in H2 as [Hg _]. by apply Hg.
Qed.
End Rules.

(** ** Membership in the lists built with [flat_map] and [map] *)

Lemma elem_of_flat_map {A B} (f : A → list B) (l : list A) (x : B) :
  x ∈ flat_map f l ↔ ∃ y, y ∈ l ∧ x ∈ f y.
Proof.
  rewrite list_elem_of_In, in_flat_map. split; intros (y & H1 & H2); exists y;
    by rewrite ?list_elem_of_In in *.
Qed.

Lemma elem_of_list_map {A B} (f : A → B) (l : list A) (y : B) :
  y ∈ map f l ↔ ∃ x, x ∈ l ∧ y = f x.
Proof.
  rewrite list_elem_of_In, in_map_iff. split; intros (x & H1 & H2); exists x;
    by rewrite ?list_elem_of_In in *.
Qed.

Lemma resolve_eq info id :
  resolve info id = match Uses info !! ident_ptr id with
                    | Some ref => Some ref
                    | None => Defs info !! ident_ptr id
                    end.
Proof. done. Qed.

Lemma seedOps_eq info entryDecls :
  seedOps info entryDecls = walkOps (resolve info) (flat_map walkDecl entryDecls).
Proof. done. Qed.

(** ** Use-edges *)

Section Edges.
Variable info : Info.
Variable files : list File.

#[local] Abbreviation allDecls := (allDecls files).
#[local] Abbreviation expandOps := (expandOps info files).
#[local] Abbreviation resolve := (resolve info).
#[local] Abbreviation usesOf := (usesOf info).

(** [references n S]: the expansion of a symbol named [n] calls [visit]
    on [S].  The four cases are the four places where [visit] walks a
    matching declaration. *)
Inductive references (n : string) (S : Object) : Prop :=
| ref_body Recv Name_ Type_ body id :
    FuncDecl Recv Name_ Type_ (Some body) ∈ allDecls → Name Name_ = n →
    SeeIdent id ∈ walkStmt (BlockStmt body) → resolve id = Some S →
    references n S
| ref_field Specs Name_ TypeParams fields field id :
    GenDecl Specs ∈ allDecls →
    TypeSpec Name_ TypeParams (StructType (Some fields)) ∈ Specs →
    Name Name_ = n → field ∈ fields →
    SeeIdent id ∈ typeWalk (Field_Type field) → usesOf id = Some S →
    references n S
| ref_type Specs Names Type_ Values name id :
    GenDecl Specs ∈ allDecls → ValueSpec Names Type_ Values ∈ Specs →
    name ∈ Names → Name name = n →
    SeeIdent id ∈ typeWalk Type_ → usesOf id = Some S →
    references n S
| ref_value Specs Names Type_ Values name val id :
    GenDecl Specs ∈ allDecls → ValueSpec Names Type_ Values ∈ Specs →
    name ∈ Names → Name name = n → val ∈ Values →
    SeeIdent id ∈ exprWalk val → usesOf id = Some S →
    references n S.

Lemma walkOps_visit res evs ref :
  OVisit ref ∈ walkOps res evs ↔ ∃ id, SeeIdent id ∈ evs ∧ ref = res id.
Proof.
  unfold walkOps. rewrite elem_of_list_map. split.
  - intros ([id|] & Hin & Heq); [|done]. exists id. by inversion Heq.
  - intros (id & Hin & ->). by exists (SeeIdent id).
Qed.

Lemma walkOps_set res evs n d : OSet n d ∉ walkOps res evs.
Proof. unfold walkOps. rewrite elem_of_list_map. by intros ([|] & _ & ?). Qed.

Lemma walkOps_panic res evs : OPanic ∈ walkOps res evs ↔ WalkPanic ∈ evs.
Proof.
  unfold walkOps. rewrite elem_of_list_map. split.
  - by intros ([|] & ? & ?).
  - intros ?. by exists WalkPanic.
Qed.

Ltac unpack :=
  repeat match goal with
         | H : _ ∈ flat_map _ _ |- _ => apply elem_of_flat_map in H as (? & ? & H)
         | H : _ ∈ _ :: _ |- _ => apply elem_of_cons in H as [H|H]
         | H : _ ∈ (_ ++ _)%list |- _ => apply elem_of_app in H as [H|H]
         | H : _ ∈ [] |- _ => by apply elem_of_nil in H
         | H : OSet _ _ ∈ walkOps _ _ |- _ => by apply walkOps_set in H
         | H : OVisit _ ∈ walkOps _ _ |- _ => apply walkOps_visit in H as (? & H & ?)
         | H : _ ∈ (if decide ?P then _ else _) |- _ => destruct (decide P)
         | H : OSet _ _ = OSet _ _ |- _ => inversion H; subst; clear H
         | H : OVisit _ = OSet _ _ |- _ => discriminate H
         | H : OSet _ _ = OVisit _ |- _ => discriminate H
         | H : SeeIdent _ = WalkPanic |- _ => discriminate H
         | H : _ ∈ derefFields _ ?p |- _ => destruct p; simpl in H
         | H : _ ∈ bodyWalk ?p |- _ => destruct p; unfold bodyWalk in H
         end.

Lemma specOps_set n d spec n' d' :
  OSet n' d' ∈ specOps info n d spec → n' = n ∧ d' = d ∧ n ∈ map Name (specIdents spec).
Proof.
  destruct spec as [|Names Type_ Values|Name_ tp Type_]; simpl; intros H;
    unpack; subst.
  - split_and!; [done..|]. apply elem_of_list_map. eauto.
  - split_and!; [done..|]. apply list_elem_of_singleton. done.
  - destruct Type_; unpack.
Qed.

Lemma declOps_set n d n' d' :
  OSet n' d' ∈ declOps info n d → n' = n ∧ d' = d ∧ n ∈ declNames d.
Proof.
  destruct d as [|Specs|Recv Name_ Type_ Body]; simpl; intros H; unpack; subst.
  - apply specOps_set in H as (-> & -> & Hn). split_and!; [done..|].
    unfold declNames. simpl. apply elem_of_list_map in Hn as (id & Hid & ->).
    apply elem_of_list_map. exists id. split; [|done].
    apply elem_of_flat_map. eauto.
  - split_and!; [done..|]. unfold declNames. simpl.
    by apply list_elem_of_singleton.
Qed.

Lemma expandOps_set n n' d' :
  OSet n' d' ∈ expandOps n → n' = n ∧ d' ∈ allDecls ∧ n ∈ declNames d'.
Proof.
  unfold expandOps. intros H. unpack.
  apply declOps_set in H as (-> & -> & ?). done.
Qed.

Lemma specOps_nil n d spec :
  n ∉ map Name (specIdents spec) → specOps info n d spec = [].
Proof.
  destruct spec as [|Names Type_ Values|Name_ tp Type_]; simpl; [done| |].
  - induction Names as [|name Names IH]; simpl; [done|].
    intros [Hne Hn]%not_elem_of_cons. rewrite decide_False by done.
    by apply IH.
  - intros [Hne _]%not_elem_of_cons. by rewrite decide_False.
Qed.

Lemma specOps_head n d spec :
  n ∈ map Name (specIdents spec) → ∃ ops, specOps info n d spec = OSet n d :: ops.
Proof.
  destruct spec as [|Names Type_ Values|Name_ tp Type_]; simpl.
  - by intros ?%elem_of_nil.
  - induction Names as [|name Names IH]; simpl; [by intros ?%elem_of_nil|].
    intros Hin. destruct (decide (Name name = n)) as [|Hne]; [eauto|].
    apply elem_of_cons in Hin as [|Hin]; [done|]. by apply IH.
  - intros ->%list_elem_of_singleton. rewrite decide_True by done. eauto.
Qed.

Lemma declOps_nil n d : n ∉ declNames d → declOps info n d = [].
Proof.
  unfold declNames. destruct d as [|Specs|Recv Name_ Type_ Body]; simpl; [done| |].
  - generalize (GenDecl Specs). intros d.
    induction Specs as [|spec Specs IH]; simpl; [done|].
    rewrite map_app. intros [H1 H2]%not_elem_of_app.
    by rewrite specOps_nil, IH.
  - intros [Hne _]%not_elem_of_cons. by rewrite decide_False.
Qed.

Lemma declOps_head n d :
  n ∈ declNames d → ∃ ops, declOps info n d = OSet n d :: ops.
Proof.
  unfold declNames. destruct d as [|Specs|Recv Name_ Type_ Body]; simpl.
  - by intros ?%elem_of_nil.
  - generalize (GenDecl Specs). intros d.
    induction Specs as [|spec Specs IH]; simpl; [by intros ?%elem_of_nil|].
    rewrite map_app. intros Hin.
    destruct (decide (n ∈ map Name (specIdents spec))) as [Hs|Hs].
    + apply (specOps_head n d) in Hs as [ops ->]. simpl. eauto.
    + rewrite specOps_nil by done. simpl.
      apply elem_of_app in Hin as [|Hin]; [done|]. by apply IH.
  - intros ->%list_elem_of_singleton. rewrite decide_True by done. eauto.
Qed.

Lemma expandOps_references n S :
  OVisit (Some S) ∈ expandOps n ↔ references n S.
Proof.
  split.
  - unfold expandOps. intros H.
    apply elem_of_flat_map in H as (d & Hd & H).
    destruct d as [|Specs|Recv Name_ Type_ Body]; simpl in H;
      [by apply elem_of_nil in H| |unpack].
    + apply elem_of_flat_map in H as (spec & Hs & H).
      destruct spec as [|Names Type_ Values|Name_ tp Type_]; simpl in H; unpack.
      * eapply ref_type; eauto.
      * eapply ref_value; eauto.
      * destruct Type_; unpack. eapply ref_field; eauto.
    + eapply ref_body; eauto.
  - intros [Recv Name_ Type_ body id Hd Hn Hid Hr
           |Specs Name_ tp fields field id Hd Hs Hn Hf Hid Hr
           |Specs Names Type_ Values name id Hd Hs Hnm Hn Hid Hr
           |Specs Names Type_ Values name val id Hd Hs Hnm Hn Hv Hid Hr];
      unfold expandOps; apply elem_of_flat_map; eexists; (split; [exact Hd|]);
      simpl.
    + rewrite decide_True by done. right. apply walkOps_visit. eauto.
    + apply elem_of_flat_map. eexists; split; [exact Hs|]. simpl.
      rewrite decide_True by done. right. apply walkOps_visit.
      exists id. split; [|done]. simpl. apply elem_of_flat_map. eauto.
    + apply elem_of_flat_map. eexists; split; [exact Hs|]. simpl.
      apply elem_of_flat_map. eexists; split; [exact Hnm|].
      rewrite decide_True by done. right. apply walkOps_visit.
      exists id. split; [|done]. apply elem_of_app. by left.
    + apply elem_of_flat_map. eexists; split; [exact Hs|]. simpl.
      apply elem_of_flat_map. eexists; split; [exact Hnm|].
      rewrite decide_True by done. right. apply walkOps_visit.
      exists id. split; [|done]. apply elem_of_app. right.
      apply elem_of_flat_map. eauto.
Qed.

(** The objects the Resolver knows: only they are ever visited. *)
Definition objects : gset Object :=
  map_img (Uses info) ∪ map_img (Defs info).

Lemma usesOf_objects id o : usesOf id = Some o → o ∈ objects.
Proof.
  intros H. apply elem_of_union_l. by eapply elem_of_map_img_2.
Qed.

Lemma resolve_objects id o : resolve id = Some o → o ∈ objects.
Proof.
  rewrite resolve_eq. destruct (Uses info !! ident_ptr id) eqn:E.
  - intros [= <-]. by eapply usesOf_objects.
  - intros H. apply elem_of_union_r. by eapply elem_of_map_img_2.
Qed.

Lemma references_objects n S : references n S → S ∈ objects.
Proof. intros []; eauto using usesOf_objects, resolve_objects. Qed.
End Edges.

(** ** The closure: termination, soundness, completeness *)

Section Facts.
Variable info : Info.
Variable files : list File.

#[local] Abbreviation visit := (visit info files).
#[local] Abbreviation allDecls := (allDecls files).
#[local] Abbreviation expandOps := (expandOps info files).
#[local] Abbreviation seedOps := (seedOps info).
#[local] Abbreviation resolve := (resolve info).
#[local] Abbreviation references := (references info files).
#[local] Abbreviation objects := (objects info).

Lemma seedOps_visit entryDecls ref :
  OVisit ref ∈ seedOps entryDecls ↔
  ∃ d id, d ∈ entryDecls ∧ SeeIdent id ∈ walkDecl d ∧ ref = resolve id.
Proof.
  rewrite seedOps_eq, walkOps_visit. split.
  - intros (id & (d & ? & ?)%elem_of_flat_map & ?). eauto.
  - intros (d & id & ? & ? & ?). exists id. split; [|done].
    apply elem_of_flat_map. eauto.
Qed.

(** *** Termination *)

Lemma runOps_no_OutOfFuel (I : State → Prop) visit' ops :
  (∀ ref st, OVisit ref ∈ ops → I st →
             visit' ref st ≠ OutOfFuel ∧ ∀ st', visit' ref st = Done st' → I st') →
  (∀ n d st, I st → I (setDeclState n d st)) →
  ∀ st, I st → runOps visit' ops st ≠ OutOfFuel.
Proof.
  induction ops as [|op ops IH]; intros Hv Hs st HI; [done|].
  rewrite runOps_cons. unfold seq.
  destruct (runOp visit' op st) as [st1| |] eqn:E; [|done|].
  - apply IH; [intros ? ? ?; apply Hv; by right|done|].
    destruct op as [ref|n d|]; simpl in E.
    + eapply Hv; [left|done..].
    + inversion E; subst. by apply Hs.
    + done.
  - destruct op as [ref|n d|]; simpl in E; [|done..].
    by eapply Hv in E; [|left|].
Qed.

Lemma visit_terminates (fuel : nat) :
  ∀ ref st, (∀ o, ref = Some o → o ∈ objects) →
            (size (objects ∖ visited st) ≤ fuel)%nat →
            visit fuel ref st ≠ OutOfFuel.
Proof.
  induction fuel as [|fuel IH]; intros [o|] st Hin Hsz; rewrite ?visit_nil;
    try done; specialize (Hin o eq_refl);
    (destruct (decide (o ∈ visited st)) as [Hv|Hv];
     [by rewrite visit_visited|]).
  - assert (objects ∖ visited st ≡ ∅) as Hemp by (apply size_empty_iff; lia).
    set_solver.
  - rewrite visit_unfold by done.
    apply (runOps_no_OutOfFuel (λ s, (size (objects ∖ visited s) ≤ fuel)%nat)).
    + intros ref s Href Hs. split.
      * apply IH; [|done]. intros o' ->.
        eapply references_objects, expandOps_references, Href.
      * intros s' [Hg _]%visit_grows. etrans; [|exact Hs].
        apply subseteq_size. set_solver.
    + done.
    + simpl. assert (objects ∖ ({[o]} ∪ visited st) ⊂ objects ∖ visited st) as Hlt.
      { split; [set_solver|]. intros Hsub. specialize (Hsub o). set_solver. }
      apply subset_size in Hlt. lia.
Qed.

Lemma seed_terminates (fuel : nat) entryDecls st :
  (size objects ≤ fuel)%nat →
  seed info files fuel entryDecls st ≠ OutOfFuel.
Proof.
  intros Hsz. rewrite seed_ops.
  apply (runOps_no_OutOfFuel (λ _, True)); [|done..].
  intros ref s (d & id & _ & _ & ->)%seedOps_visit _. split; [|done].
  apply visit_terminates; [intros o; apply resolve_objects|].
  etrans; [|exact Hsz]. apply subseteq_size. set_solver.
Qed.

Lemma seed_fuel_mono (fuel fuel' : nat) entryDecls st :
  (fuel ≤ fuel')%nat → seed info files fuel entryDecls st ≠ OutOfFuel →
  seed info files fuel' entryDecls st = seed info files fuel entryDecls st.
Proof.
  intros Hle. rewrite !seed_ops. apply runOps_mono.
  intros ref s. by apply visit_fuel_mono.
Qed.

(** *** Invariants of the traversal *)

Lemma visit_hoare (I : State → Prop) (A : Object → Prop) :
  (∀ o st, A o → I st → o ∉ visited st → I (mark o st)) →
  (∀ o d st, A o → o ∈ visited st → d ∈ allDecls →
             obj_name o ∈ declNames d → I st →
             I (setDeclState (obj_name o) d st)) →
  (∀ o o', A o → references (obj_name o) o' → A o') →
  ∀ fuel ref st st', (∀ o, ref = Some o → A o) → I st →
                     visit fuel ref st = Done st' → I st'.
Proof.
  intros Hmark Hset Hclosed.
  induction fuel as [|fuel IH]; intros [o|] st st' HA HI; rewrite ?visit_nil;
    try (by intros [= <-]); specialize (HA o eq_refl);
    (destruct (decide (o ∈ visited st)) as [Hv|Hv];
     [rewrite visit_visited by done; by intros [= <-]|]).
  - simpl. by rewrite decide_False.
  - rewrite visit_unfold by done. intros Hrun.
    eapply (runOps_hoare (λ s, I s ∧ o ∈ visited s)) in Hrun as [? _]; [done|..].
    + intros ref s s' Href [Hs Ho] Hstep. split.
      * eapply IH; [|done..]. intros o' ->.
        eapply Hclosed; [done|]. by apply expandOps_references.
      * apply visit_grows in Hstep as [Hg _]. by apply Hg.
    + intros n d s (-> & Hd & Hn)%expandOps_set [Hs Ho]. split; [|done].
      by apply Hset.
    + split; [by apply Hmark|]. simpl. set_solver.
Qed.

Lemma seed_hoare (I : State → Prop) (A : Object → Prop) entryDecls :
  (∀ o st, A o → I st → o ∉ visited st → I (mark o st)) →
  (∀ o d st, A o → o ∈ visited st → d ∈ allDecls →
             obj_name o ∈ declNames d → I st →
             I (setDeclState (obj_name o) d st)) →
  (∀ o o', A o → references (obj_name o) o' → A o') →
  (∀ d id o, d ∈ entryDecls → SeeIdent id ∈ walkDecl d →
             resolve id = Some o → A o) →
  ∀ fuel st st', I st → seed info files fuel entryDecls st = Done st' → I st'.
Proof.
  intros Hmark Hset Hclosed Hseed fuel st st' HI. rewrite seed_ops.
  apply (runOps_hoare I); [| |done].
  - intros ref s s' (d & id & Hd & Hid & ->)%seedOps_visit Hs.
    eapply visit_hoare; eauto.
  - intros n d s Hin. by apply walkOps_set in Hin.
Qed.

(** [used] holds the names of the visited objects, and [declMap] maps
    a used name to a declaration of the unit that declares it. *)
Definition names_inv (st : State) : Prop :=
  used st = set_map obj_name (visited st).

Definition declMap_inv (st : State) : Prop :=
  ∀ n d, declMap st !! n = Some d →
         n ∈ used st ∧ d ∈ allDecls ∧ n ∈ declNames d.

Lemma seed_names_inv fuel entryDecls st st' :
  names_inv st → seed info files fuel entryDecls st = Done st' → names_inv st'.
Proof.
  apply (seed_hoare names_inv (λ _, True)); try done.
  intros o s _ Hs _. unfold names_inv in *. simpl. rewrite Hs.
  by rewrite set_map_union_L, set_map_singleton_L.
Qed.

Lemma seed_declMap_inv fuel entryDecls st st' :
  names_inv st ∧ declMap_inv st →
  seed info files fuel entryDecls st = Done st' →
  names_inv st' ∧ declMap_inv st'.
Proof.
  apply (seed_hoare (λ s, names_inv s ∧ declMap_inv s) (λ _, True)); try done.
  - intros o s _ [Hn Hd] _. split.
    + unfold names_inv in *. simpl. rewrite Hn.
      by rewrite set_map_union_L, set_map_singleton_L.
    + intros n d Hl. apply Hd in Hl as (? & ? & ?). simpl. set_solver.
  - intros o d s _ Ho Hd Hn [Hnm Hdm]. split; [done|].
    intros n d'. simpl. rewrite lookup_insert. case_decide as E.
    + intros [= <-]. subst n. split_and!; [|done..].
      rewrite Hnm. apply elem_of_map. eauto.
    + apply Hdm.
Qed.

(** *** Soundness: only reachable objects are visited *)

Inductive reachable (entryDecls : list Decl) : Object → Prop :=
| reach_seed d id o :
    d ∈ entryDecls → SeeIdent id ∈ walkDecl d → resolve id = Some o →
    reachable entryDecls o
| reach_step o o' :
    reachable entryDecls o → references (obj_name o) o' →
    reachable entryDecls o'.

Lemma seed_sound fuel entryDecls st' :
  seed info files fuel entryDecls emptyState = Done st' →
  ∀ o, o ∈ visited st' → reachable entryDecls o.
Proof.
  apply (seed_hoare (λ s, ∀ o, o ∈ visited s → reachable entryDecls o)
                    (reachable entryDecls)).
  - intros o s Ho Hs _ o'. simpl. intros [->%elem_of_singleton|]%elem_of_union;
      auto.
  - done.
  - intros o o' Ho Href. by eapply reach_step.
  - intros d id o. apply reach_seed.
  - intros o. simpl. set_solver.
Qed.

(** *** Completeness: the visited set is closed under use-edges *)

Definition closed (st : State) (o : Object) : Prop :=
  ∀ S, references (obj_name o) S → S ∈ visited st.

Lemma closed_mono st st' o : grows st st' → closed st o → closed st' o.
Proof. intros [Hg _] Hc S HS. apply Hg. by apply Hc. Qed.

Lemma visit_closed fuel :
  ∀ ref st st', visit fuel ref st = Done st' →
                ∀ o, o ∈ visited st' → o ∈ visited st ∨ closed st' o.
Proof.
  induction fuel as [|fuel IH]; intros [o0|] st st'; rewrite ?visit_nil;
    try (intros [= <-]; by left);
    (destruct (decide (o0 ∈ visited st)) as [Hv|Hv];
     [rewrite visit_visited by done; intros [= <-]; by left|]).
  - simpl. by rewrite decide_False.
  - rewrite visit_unfold by done. intros Hrun o Ho.
    pose proof Hrun as Hinv.
    eapply (runOps_hoare
              (λ s, grows (mark o0 st) s ∧
                    ∀ o, o ∈ visited s → o ∈ visited (mark o0 st) ∨ closed s o))
      in Hinv as [_ Hinv].
    + destruct (Hinv o Ho) as [Hin|]; [|by right]. simpl in Hin.
      apply elem_of_union in Hin as [->%elem_of_singleton|]; [|by left].
      right. intros S HS%expandOps_references.
      by eapply runOps_targets_visited.
    + intros ref s s' _ [Hg Hs] Hstep. pose proof (visit_grows _ _ _ _ _ _ Hstep).
      split; [destruct Hg, H; split; set_solver|].
      intros o1 Ho1. destruct (IH _ _ _ Hstep o1 Ho1) as [Hin|]; [|by right].
      destruct (Hs o1 Hin); [by left|right]. by eapply closed_mono.
    + intros n d s _ [Hg Hs]. split; [done|]. intros o1 Ho1.
      destruct (Hs o1 Ho1); [by left|by right].
    + split; [done|]. intros; by left.
Qed.

Lemma seed_closed fuel entryDecls st' :
  seed info files fuel entryDecls emptyState = Done st' →
  ∀ o, o ∈ visited st' → closed st' o.
Proof.
  rewrite seed_ops.
  apply (runOps_hoare (λ s, ∀ o, o ∈ visited s → closed s o)).
  - intros ref s s' _ Hs Hstep o Ho.
    destruct (visit_closed _ _ _ _ Hstep o Ho) as [Hin|]; [|done].
    eapply closed_mono; [by eapply visit_grows|]. by apply Hs.
  - intros n d s _ Hs o Ho. by apply Hs.
  - intros o. simpl. set_solver.
Qed.

(** Every object that an identifier of the entry file resolves to is
    visited. *)
Lemma seed_targets_visited fuel entryDecls st st' d id o :
  seed info files fuel entryDecls st = Done st' →
  d ∈ entryDecls → SeeIdent id ∈ walkDecl d → resolve id = Some o →
  o ∈ visited st'.
Proof.
  rewrite seed_ops. intros Hrun Hd Hid Hr.
  eapply runOps_targets_visited; [done|].
  apply seedOps_visit. exists d, id. by rewrite Hr.
Qed.

(** *** Completion: without a panic in sight the traversal finishes *)

(** No walk of the entry file meets a [nil] node, and no expansion
    dereferences a nil field list. *)
Definition panicFree (entryDecls : list Decl) : Prop :=
  (OPanic ∉ seedOps entryDecls) ∧ (∀ n, OPanic ∉ expandOps n).

Lemma runOps_no_Panic visit' ops :
  OPanic ∉ ops → (∀ ref st, visit' ref st ≠ Panic) →
  ∀ st, runOps visit' ops st ≠ Panic.
Proof.
  intros Hops Hv. induction ops as [|op ops IH]; intros st; [done|].
  apply not_elem_of_cons in Hops as [Hop Hops].
  rewrite runOps_cons. unfold seq.
  destruct (runOp visit' op st) as [st1| |] eqn:E; [by apply IH| |done].
  destruct op as [ref|n d|]; simpl in E; [by apply Hv in E|done..].
Qed.

Lemma visit_no_Panic fuel :
  (∀ n, OPanic ∉ expandOps n) → ∀ ref st, visit fuel ref st ≠ Panic.
Proof.
  intros Hfree. induction fuel as [|fuel IH]; intros [o|] st;
    rewrite ?visit_nil; try done;
    (destruct (decide (o ∈ visited st)) as [Hv|Hv];
     [by rewrite visit_visited|]).
  - simpl. by rewrite decide_False.
  - rewrite visit_unfold by done. by apply runOps_no_Panic.
Qed.

Lemma seed_completes (fuel : nat) entryDecls :
  panicFree entryDecls → (size objects ≤ fuel)%nat →
  ∃ st, seed info files fuel entryDecls emptyState = Done st.
Proof.
  intros [Hseed Hfree] Hsz.
  pose proof (seed_terminates fuel entryDecls emptyState Hsz) as Hfuel.
  assert (seed info files fuel entryDecls emptyState ≠ Panic) as Hpanic.
  { rewrite seed_ops. apply runOps_no_Panic; [done|].
    by apply visit_no_Panic. }
  destruct (seed _ _ _ _ _); [eauto|done..].
Qed.
End Facts.

(** ** [declMap]: the last declaration found wins *)

Section LastWins.
Variable info : Info.
Variable files : list File.

#[local] Abbreviation visit := (visit info files).
#[local] Abbreviation allDecls := (allDecls files).
#[local] Abbreviation expandOps := (expandOps info files).

(** The declarations that the scan of [visit] matches with the name [n],
    in the order of the scan, and the last of them. *)
Definition matching (n : string) (ds : list Decl) : list Decl :=
  filter (λ d, n ∈ declNames d) ds.

Definition lastMatch (n : string) : option Decl := last (matching n allDecls).

Definition good (n : string) (st : State) : Prop :=
  declMap st !! n = if decide (n ∈ used st) then lastMatch n else None.

Definition steady (n : string) (st st' : State) : Prop :=
  declMap st' !! n = declMap st !! n ∨ declMap st' !! n = lastMatch n.

Definition keeps (n : string) (st st' : State) : Prop :=
  steady n st st' ∧ (good n st → good n st').

Lemma keeps_refl n st : keeps n st st.
Proof. split; [by left|done]. Qed.

Lemma keeps_trans n st1 st2 st3 :
  keeps n st1 st2 → keeps n st2 st3 → keeps n st1 st3.
Proof.
  intros [[H1|H1] G1] [[H2|H2] G2]; (split; [|tauto]); unfold steady in *;
    rewrite ?H2, ?H1; auto.
Qed.

Section Scan.
Variable fuel : nat.
Variable n0 : string.
Hypothesis IH : ∀ ref st st', visit fuel ref st = Done st' → ∀ n, keeps n st st'.

Lemma piece_lastMatch d ops :
  (∀ n' d', OSet n' d' ∈ ops → n' = n0 ∧ d' = d) →
  ∀ st st', runOps (visit fuel) ops st = Done st' →
    (∀ n, n ≠ n0 → keeps n st st') ∧
    ((declMap st !! n0 = Some d ∨ declMap st !! n0 = lastMatch n0) →
     (declMap st' !! n0 = Some d ∨ declMap st' !! n0 = lastMatch n0)).
Proof using IH.
  intros Hsets st st'.
  apply (runOps_hoare
           (λ s, (∀ n, n ≠ n0 → keeps n st s) ∧
                 ((declMap st !! n0 = Some d ∨ declMap st !! n0 = lastMatch n0) →
                  (declMap s !! n0 = Some d ∨ declMap s !! n0 = lastMatch n0)))).
  - intros ref s s' _ [Hk Hq] Hstep. split.
    + intros n Hn. eapply keeps_trans; [by apply Hk|by eapply IH].
    + intros Hst. destruct (IH _ _ _ Hstep n0) as [[->| ->] _]; auto.
  - intros n d' s [-> ->]%Hsets [Hk Hq]. split.
    + intros n Hn. eapply keeps_trans; [by apply Hk|].
      unfold keeps, steady, good. simpl. rewrite lookup_insert_ne by done.
      auto.
    + intros _. left. simpl. by rewrite lookup_insert_eq.
  - split; [intros; apply keeps_refl|done].
Qed.

Lemma scan_lastMatch ds :
  ∀ pre, allDecls = (pre ++ ds)%list →
  ∀ st st', runOps (visit fuel) (flat_map (declOps info n0) ds) st = Done st' →
    (∀ n, n ≠ n0 → keeps n st st') ∧
    (declMap st' !! n0 = lastMatch n0 ∨
     (matching n0 ds = [] ∧ declMap st' !! n0 = declMap st !! n0)).
Proof using IH.
  induction ds as [|d ds IHds]; intros pre Hall st st' Hrun.
  { inversion Hrun; subst. split; [intros; apply keeps_refl|by right]. }
  simpl in Hrun. apply runOps_Done_app in Hrun as (st1 & H1 & H2).
  destruct (IHds (pre ++ [d])%list) with (st := st1) (st' := st')
    as [Hk2 Hq2]; [by rewrite <- app_assoc|done|].
  destruct (decide (n0 ∈ declNames d)) as [Hd|Hd].
  - destruct (declOps_head info n0 d Hd) as [ops Hops].
    rewrite Hops in H1. apply runOps_Done_cons in H1 as (st0 & H0 & H1).
    simpl in H0. inversion H0; subst st0; clear H0.
    destruct (piece_lastMatch d ops) with (st := setDeclState n0 d st) (st' := st1)
      as [Hk1 Hq1]; [|done|].
    { intros n' d' Hin.
      destruct (declOps_set info n0 d n' d') as (? & ? & _); [|done].
      rewrite Hops. by right. }
    split.
    + intros n Hn. eapply keeps_trans; [|by apply Hk2].
      eapply keeps_trans; [|by apply Hk1].
      unfold keeps, steady, good. simpl. rewrite lookup_insert_ne by done.
      auto.
    + left. destruct Hq2 as [|[Hnil ->]]; [done|].
      assert (lastMatch n0 = Some d) as Hlast.
      { unfold lastMatch, matching in *. rewrite Hall, filter_app, filter_cons_True by done.
        rewrite Hnil. by rewrite last_snoc. }
      destruct Hq1 as [->| ->]; [|done..].
      left. simpl. by rewrite lookup_insert_eq.
  - rewrite (declOps_nil info n0 d Hd) in H1. inversion H1; subst st1.
    split; [done|]. destruct Hq2 as [|[Hnil ->]]; [by left|right].
    split; [|done]. unfold matching in *. by rewrite filter_cons_False.
Qed.
End Scan.

Lemma visit_lastMatch fuel :
  ∀ ref st st', visit fuel ref st = Done st' → ∀ n, keeps n st st'.
Proof.
  induction fuel as [|fuel IH]; intros [o|] st st'; rewrite ?visit_nil;
    try (intros [= <-] n; apply keeps_refl);
    (destruct (decide (o ∈ visited st)) as [Hv|Hv];
     [rewrite visit_visited by done; intros [= <-] n; apply keeps_refl|]).
  - simpl. by rewrite decide_False.
  - rewrite visit_unfold by done. intros Hrun n.
    pose proof (runOps_grows _ _ _ _ _ _ Hrun) as [_ Hu].
    destruct (scan_lastMatch fuel (obj_name o) IH allDecls [] eq_refl _ _ Hrun)
      as [Hk Hq].
    destruct (decide (n = obj_name o)) as [->|Hn].
    + assert (obj_name o ∈ used st') as Hin by (apply Hu; simpl; set_solver).
      unfold keeps, steady, good. simpl in Hq.
      destruct (decide (obj_name o ∈ used st')); [|done].
      destruct Hq as [->|[Hnil ->]]; [by auto|].
      split; [by left|]. intros ->.
      unfold lastMatch. rewrite Hnil. simpl. by case_decide.
    + destruct (Hk n Hn) as [Hs Hg]. split; [done|].
      intros G. apply Hg. unfold good in *. simpl. rewrite G.
      destruct (decide (n ∈ used st)), (decide (n ∈ {[obj_name o]} ∪ used st));
        set_solver.
Qed.

(** At the end, [declMap] holds, for every used name that some
    declaration of the unit matches, the last match of the scan, and
    nothing else. *)
Lemma seed_lastMatch fuel entryDecls st' :
  seed info files fuel entryDecls emptyState = Done st' →
  ∀ n, declMap st' !! n = if decide (n ∈ used st') then lastMatch n else None.
Proof.
  rewrite seed_ops. apply (runOps_hoare (λ s, ∀ n, good n s)).
  - intros ref s s' _ Hs Hstep n. by eapply visit_lastMatch.
  - intros n d s Hin. by apply walkOps_set in Hin.
  - intros n. unfold good. simpl. by rewrite lookup_empty, decide_False by set_solver.
Qed.

Lemma lastMatch_Some n d :
  lastMatch n = Some d → d ∈ allDecls ∧ n ∈ declNames d.
Proof.
  unfold lastMatch, matching. intros H.
  assert (d ∈ filter (λ d, n ∈ declNames d) allDecls) as Hin.
  { apply last_Some in H as [l ->]. set_solver. }
  by apply list_elem_of_filter in Hin as [? ?].
Qed.

Lemma lastMatch_is_Some n d :
  d ∈ allDecls → n ∈ declNames d → is_Some (lastMatch n).
Proof.
  intros Hd Hn. unfold lastMatch, matching.
  destruct (last _) eqn:E; [eauto|]. apply last_None in E.
  assert (d ∈ filter (λ d, n ∈ declNames d) allDecls) as Hin
    by by apply list_elem_of_filter.
  rewrite E in Hin. by apply elem_of_nil in Hin.
Qed.
End LastWins.

(** ** What a successful call returns *)

Lemma Collect_Ok packages_Load order fuel entryFile used_ decls :
  CollectUsedDeclarations packages_Load order fuel entryFile = Ok (used_, decls) →
  ∃ pkg rest entryAST st,
    packages_Load entryFile = Some (pkg :: rest) ∧
    find (λ f, bool_decide (Filename f = entryFile)) (Syntax pkg) = Some entryAST ∧
    seed (TypesInfo pkg) (Syntax pkg) fuel (Decls entryAST) emptyState = Done st ∧
    used_ = used st ∧
    decls = (rangeOver order (declMap st)).*2.
Proof.
  unfold CollectUsedDeclarations.
  destruct (packages_Load entryFile) as [[|pkg rest]|]; [done| |done].
  destruct (find _ _) as [entryAST|] eqn:Hfind; [|done].
  destruct (seed _ _ _ _ _) as [st| |] eqn:E; [|done..].
  intros H. inversion H; subst. by exists pkg, rest, entryAST, st.
Qed.

Lemma seed_used fuel info files entryDecls st :
  seed info files fuel entryDecls emptyState = Done st →
  ∀ n, n ∈ used st ↔ ∃ o, o ∈ visited st ∧ obj_name o = n.
Proof.
  intros Hrun n. eapply seed_names_inv in Hrun; [|done].
  rewrite Hrun, elem_of_map. naive_solver.
Qed.

(** The identifiers that declare names are among those [ast.Inspect] meets
    in the declaration. *)
Lemma declIdents_walk d id : id ∈ declIdents d → SeeIdent id ∈ walkDecl d.
Proof.
  destruct d as [|Specs|Recv Name_ Type_ Body]; simpl.
  - by intros ?%elem_of_nil.
  - intros (spec & Hs & Hid)%elem_of_flat_map. apply elem_of_flat_map.
    exists spec. split; [done|].
    destruct spec as [|Names Type_ Values|Name_ tp Type_]; simpl in *.
    + by apply elem_of_nil in Hid.
    + apply elem_of_app. left. apply elem_of_list_map. eauto.
    + apply list_elem_of_singleton in Hid as ->. left.
  - intros ->%list_elem_of_singleton. apply elem_of_app. right. left.
Qed.

Lemma entry_decls_in_unit entryFile files entryAST d :
  find (λ f, bool_decide (Filename f = entryFile)) files = Some entryAST →
  d ∈ Decls entryAST → d ∈ allDecls files.
Proof.
  intros [Hin _]%find_some Hd. apply elem_of_flat_map. exists entryAST.
  by rewrite list_elem_of_In.
Qed.

Lemma rangeOver_values order (m : gmap string Decl) d :
  d ∈ (rangeOver order m).*2 ↔ ∃ n, m !! n = Some d.
Proof.
  rewrite list_elem_of_fmap. split.
  - intros ([n d'] & -> & Hin). exists n.
    rewrite rangeOver_perm in Hin. by apply elem_of_map_to_list in Hin.
  - intros [n Hn]. exists (n, d). split; [done|].
    rewrite rangeOver_perm. by apply elem_of_map_to_list.
Qed.

(** ** The walkers stay inside what [ast.Inspect] sees *)

Lemma walkExpr_guard e id :
  SeeIdent id ∈ walkExpr e →
  SeeIdent id ∈ match e with NilExpr => [] | _ => walkExpr e end.
Proof.
  destruct e; try done. simpl. intros [?|[]%elem_of_nil]%elem_of_cons. done.
Qed.

Lemma walkField_type f id :
  SeeIdent id ∈ walkExpr (Field_Type f) → SeeIdent id ∈ walkField f.
Proof.
  destruct f as [names ty]. simpl. intros H%walkExpr_guard.
  apply elem_of_app. by right.
Qed.

Lemma derefFields_walk (g : Field → list WalkEvent) p id :
  Forall (λ f, SeeIdent id ∈ g f → SeeIdent id ∈ walkExpr (Field_Type f))
         (default [] p) →
  SeeIdent id ∈ derefFields g p → SeeIdent id ∈ walkOpt (walkList walkField) p.
Proof.
  destruct p as [l|]; simpl.
  - intros Hall (f & Hf & Hid)%elem_of_flat_map. apply elem_of_flat_map.
    exists f. split; [done|]. apply walkField_type.
    rewrite Forall_forall in Hall. by apply Hall.
  - intros _ [?|[]%elem_of_nil]%elem_of_cons. done.
Qed.

Lemma typeWalk_sub id expr :
  SeeIdent id ∈ typeWalk expr → SeeIdent id ∈ walkExpr expr.
Proof.
  induction expr as [e IH] using Expr_children_ind.
  destruct e as [| | | | | | | | | | | | | | | | | | | | [tp ps rs] | | |];
    simpl in IH; simpl; try done; try (by intros ?%elem_of_nil);
    repeat match goal with
           | H : Forall _ (_ :: _) |- _ => apply Forall_cons in H as [? H]
           | H : Forall _ (_ ++ _) |- _ => apply Forall_app in H as [? H]
           end;
    rewrite ?elem_of_app; intros Hin;
    repeat match goal with
           | H : _ ∨ _ |- _ => destruct H as [H|H]
           end;
    eauto using walkExpr_guard.
  all: apply Forall_fieldTypes in H0, IH; right;
    first [ left; apply (derefFields_walk (λ f, typeWalk (Field_Type f)));
            [exact H0|exact Hin]
          | right; apply (derefFields_walk (λ f, typeWalk (Field_Type f)));
            [exact IH|exact Hin] ].
Qed.

Lemma exprWalk_sub id expr :
  SeeIdent id ∈ exprWalk expr → SeeIdent id ∈ walkExpr expr.
Proof.
  induction expr as [e IH] using Expr_children_ind.
  assert (∀ l, Forall (λ e, SeeIdent id ∈ exprWalk e → SeeIdent id ∈ walkExpr e) l →
               SeeIdent id ∈ flat_map exprWalk l →
               SeeIdent id ∈ walkList walkExpr l) as Hlist.
  { intros l Hall (x & Hx & Hid)%elem_of_flat_map. apply elem_of_flat_map.
    exists x. split; [done|]. rewrite Forall_forall in Hall. by apply Hall. }
  destruct e; simpl in IH; simpl; try done; try (by intros ?%elem_of_nil);
    repeat match goal with
           | H : Forall _ (_ :: _) |- _ => apply Forall_cons in H as [? H]
           end;
    rewrite ?elem_of_app; intros Hin;
    repeat match goal with
           | H : _ ∨ _ |- _ => destruct H as [H|H]
           end;
    eauto 6 using walkExpr_guard, typeWalk_sub.
Qed.


(** ** Facts about the scenarios *)

Lemma ifc_reachable o :
  reachable ifc_info [ifc_entry; ifc_lib] (Decls ifc_entry) o →
  o = ifc_X ∨ o = ifc_I.
Proof.
  induction 1 as [d id o Hd Hid Hr|o o' _ IH Href].
  - apply list_elem_of_In in Hd. simpl in Hd. destruct Hd as [<-|[]].
    apply list_elem_of_In in Hid. simpl in Hid.
    destruct Hid as [[= <-]|[[= <-]|[]]]; vm_compute in Hr;
      inversion Hr; auto.
  - apply expandOps_references, list_elem_of_In in Href.
    destruct IH as [-> | ->]; vm_compute in Href.
    + destruct Href as [Href|[Href|[]]]; inversion Href. by right.
    + destruct Href as [Href|[]]; inversion Href.
Qed.

Lemma eif_reachable o :
  reachable eif_info [eif_entry; eif_lib] (Decls eif_entry) o →
  o = eif_I ∨ o = eif_IM.
Proof.
  induction 1 as [d id o Hd Hid Hr|o o' _ IH Href].
  - apply list_elem_of_In in Hd. simpl in Hd. destruct Hd as [<-|[]].
    apply list_elem_of_In in Hid. simpl in Hid.
    destruct Hid as [[= <-]|[[= <-]|[]]]; vm_compute in Hr;
      inversion Hr; auto.
  - apply expandOps_references, list_elem_of_In in Href.
    destruct IH as [-> | ->]; vm_compute in Href.
    + destruct Href as [Href|[]]; inversion Href.
    + destruct Href as [Href|[]]; inversion Href.
Qed.

Lemma eif_result :
  CollectUsedDeclarations eif_load stdOrder 2 "entry.go" =
  Ok ({["I"; "M"]}, [eif_methodM; eif_declI]).
Proof. vm_compute. reflexivity. Qed.

Lemma col_result :
  CollectUsedDeclarations col_load stdOrder 3 "entry.go" =
  Ok ({["T"; "Run"]}, [col_funcRun; col_typeT]).
Proof. vm_compute. reflexivity. Qed.

Lemma sel_result :
  ∃ decls, CollectUsedDeclarations sel_load stdOrder 5 "entry.go" = Ok (sel_used, decls).
Proof. eexists. vm_compute. reflexivity. Qed.



(** * The claims *)






(** C3 fails on the code.  A function type without results has a nil
    [Results] list, and [visitTypeExpr] dereferences it: whatever the
    callback and the parameters, the walk of such a type never completes,
    and with an empty parameter list it panics at once.  The entry file
    [type Handler struct { Callback func() }] makes
    [CollectUsedDeclarations] panic, for every fuel that lets it start and
    every map order. *)
Theorem func_type_without_results_panics :
  (∀ info visit TypeParams Params st st',
     visitTypeExpr (FuncTypeExpr (mkFuncType TypeParams Params None)) info visit st
     ≠ Done st') ∧
  (∀ info visit TypeParams st,
     visitTypeExpr (FuncTypeExpr (mkFuncType TypeParams (Some []) None)) info visit st
     = Panic) ∧
  (∀ order fuel,
     CollectUsedDeclarations fn_load order (S fuel) "entry.go" = Panicked).
Proof.
  split_and!; [|done|].
  { intros info visit tp ps st st'. simpl. unfold seq.
    by destruct (forFields _ ps st). }
  intros order fuel.
  assert (seed fn_info [fn_entry] 1 (Decls fn_entry) emptyState = Panic) as E
    by (vm_compute; reflexivity).
  assert (seed fn_info [fn_entry] (S fuel) (Decls fn_entry) emptyState = Panic) as E'.
  { rewrite (seed_fuel_mono fn_info [fn_entry] 1 (S fuel)); [done|lia|].
    by rewrite E. }
  change (CollectUsedDeclarations fn_load order (S fuel) "entry.go")
    with (match seed fn_info [fn_entry] (S fuel) (Decls fn_entry) emptyState with
          | Done st => Ok (used st, (rangeOver order (declMap st)).*2)
          | Panic => Panicked
          | OutOfFuel => NoFuel
          end).
  by rewrite E'.
Qed.

(** C4, as the code has it.  For every call that succeeds, every returned
    declaration is a declaration of the compilation unit.  For every
    identifier that declares a name in a declaration of the entry file
    (the name of a function, method, type, variable or constant; an import
    declares none) and that the Resolver resolves to an object of that
    name, the name is in UsedSet and the last declaration of the unit that
    declares this name is returned; so the entry file's own declaration is
    returned when it is that last one. *)
Theorem retained_subset_and_last_declarations
    packages_Load order fuel entryFile pkg rest entryAST used_ decls :
  packages_Load entryFile = Some (pkg :: rest) →
  find (λ f, bool_decide (Filename f = entryFile)) (Syntax pkg) = Some entryAST →
  CollectUsedDeclarations packages_Load order fuel entryFile = Ok (used_, decls) →
  (∀ d, d ∈ decls → d ∈ allDecls (Syntax pkg)) ∧
  (∀ d id o,
     d ∈ Decls entryAST → id ∈ declIdents d →
     resolve (TypesInfo pkg) id = Some o → obj_name o = Name id →
     Name id ∈ used_ ∧
     (∃ d', lastMatch (Syntax pkg) (Name id) = Some d' ∧ d' ∈ decls) ∧
     (lastMatch (Syntax pkg) (Name id) = Some d → d ∈ decls)).
Proof.
  intros Hload Hfind Hok.
  apply Collect_Ok in Hok as (pkg' & rest' & entryAST' & st & Hl & Hf & Hrun & -> & ->).
  rewrite Hload in Hl. inversion Hl; subst pkg' rest'; clear Hl.
  rewrite Hfind in Hf. inversion Hf; subst entryAST'; clear Hf.
  pose proof (seed_lastMatch _ _ _ _ _ Hrun) as Hlast.
  split.
  - intros d [n Hn]%rangeOver_values. rewrite Hlast in Hn.
    case_decide; [|done]. by apply lastMatch_Some in Hn as [? _].
  - intros d id o Hd Hid Hr Hname.
    assert (Name id ∈ used st) as Hu.
    { apply (seed_used _ _ _ _ _ Hrun). exists o. split; [|done].
      eapply seed_targets_visited; [done..| |done]. by apply declIdents_walk. }
    assert (∃ d', lastMatch (Syntax pkg) (Name id) = Some d') as [d' Hd'].
    { apply (lastMatch_is_Some _ _ d).
      - by eapply entry_decls_in_unit.
      - apply elem_of_list_map. eauto. }
    assert (d' ∈ (rangeOver order (declMap st)).*2) as Hin.
    { apply rangeOver_values. exists (Name id). rewrite Hlast.
      by rewrite decide_True. }
    split_and!; [done|eauto|]. rewrite Hd'. by intros [= <-].
Qed.

Lemma retained_subset_and_last_declarations_witness :
  (∀ d, d ∈ [col_funcRun; col_typeT] → d ∈ allDecls (Syntax col_pkg)) ∧
  (∀ d id o,
     d ∈ Decls col_entry → id ∈ declIdents d →
     resolve (TypesInfo col_pkg) id = Some o → obj_name o = Name id →
     Name id ∈ ({["T"; "Run"]} : gset string) ∧
     (∃ d', lastMatch (Syntax col_pkg) (Name id) = Some d' ∧
            d' ∈ [col_funcRun; col_typeT]) ∧
     (lastMatch (Syntax col_pkg) (Name id) = Some d → d ∈ [col_funcRun; col_typeT])).
Proof.
  apply (retained_subset_and_last_declarations col_load stdOrder 3 "entry.go"
           col_pkg [] col_entry).
  - reflexivity.
  - reflexivity.
  - vm_compute. reflexivity.
Defined.

(** C4 as stated fails: in the unit [col_pkg] the method [Run] is written
    in the entry file, the call succeeds, and the method is not among the
    returned declarations, because the function [Run], found later,
    replaced it in [declMap]. *)
Lemma entry_declaration_not_retained :
  ¬ (∀ packages_Load order fuel entryFile pkg rest entryAST used_ decls,
       packages_Load entryFile = Some (pkg :: rest) →
       find (λ f, bool_decide (Filename f = entryFile)) (Syntax pkg) = Some entryAST →
       CollectUsedDeclarations packages_Load order fuel entryFile = Ok (used_, decls) →
       (∀ d, d ∈ decls → d ∈ allDecls (Syntax pkg)) ∧
       (∀ d, d ∈ Decls entryAST → d ∈ decls)).
Proof.
  intros H.
  destruct (H col_load stdOrder 3%nat "entry.go" col_pkg [] col_entry _ _
              eq_refl eq_refl col_result) as [_ Hall].
  specialize (Hall col_methodRun).
  assert (col_methodRun ∈ Decls col_entry) as Hin
    by (apply list_elem_of_In; simpl; tauto).
  apply Hall, list_elem_of_In in Hin. simpl in Hin.
  destruct Hin as [Hin|[Hin|[]]]; discriminate Hin.
Qed.

(** C5, as the code has it.  [visitTypeExpr] returns at once on an
    interface type, whatever its method list and whatever the callback;
    the expansion of a type declaration whose type is an interface only
    records the declaration; and a name enters UsedSet only as the name
    of an object that is reachable through identifiers the traversal
    resolves ([reachable]: the identifiers of the entry file, of the
    bodies of matched functions, and those that the two walkers look up
    in matched struct, variable and constant declarations).  So a symbol
    is absent from UsedSet when no reachable object carries its name,
    even if it implements a method of a reachable interface. *)
Theorem interface_bodies_not_expanded packages_Load order fuel entryFile :
  (∀ info visit Methods st,
     visitTypeExpr (InterfaceType Methods) info visit st = Done st ∧
     typeWalk (InterfaceType Methods) = []) ∧
  (∀ info visit obj d Name_ TypeParams Methods st,
     visitSpec info visit obj d (TypeSpec Name_ TypeParams (InterfaceType Methods)) st =
     if decide (Name Name_ = obj_name obj)
     then Done (setDeclState (obj_name obj) d st) else Done st) ∧
  (∀ pkg rest entryAST used_ decls n,
     packages_Load entryFile = Some (pkg :: rest) →
     find (λ f, bool_decide (Filename f = entryFile)) (Syntax pkg) = Some entryAST →
     CollectUsedDeclarations packages_Load order fuel entryFile = Ok (used_, decls) →
     (∀ o, reachable (TypesInfo pkg) (Syntax pkg) (Decls entryAST) o → obj_name o ≠ n) →
     n ∉ used_).
Proof.
  split_and!.
  - done.
  - intros. simpl. by case_decide.
  - intros pkg rest entryAST used_ decls n Hload Hfind Hok Hreach Hin.
    apply Collect_Ok in Hok as (pkg' & rest' & entryAST' & st & Hl & Hf & Hrun & -> & _).
    rewrite Hload in Hl. inversion Hl; subst pkg' rest'; clear Hl.
    rewrite Hfind in Hf. inversion Hf; subst entryAST'; clear Hf.
    apply (seed_used _ _ _ _ _ Hrun) in Hin as (o & Ho & Hn).
    eapply Hreach; [|exact Hn]. by eapply seed_sound.
Qed.

Lemma interface_bodies_not_expanded_witness :
  ∃ used_ decls,
    CollectUsedDeclarations ifc_load stdOrder 2 "entry.go" = Ok (used_, decls) ∧
    "M" ∉ used_.
Proof.
  exists {["X"; "I"]},
    [GenDecl [TypeSpec (mkIdent 20 "I") None
                (InterfaceType (Some [mkField [mkIdent 21 "M"]
                                        (FuncTypeExpr funcNoResult)]))];
     GenDecl [ValueSpec [mkIdent 10 "X"] (IdentExpr (mkIdent 11 "I")) []]].
  assert (CollectUsedDeclarations ifc_load stdOrder 2 "entry.go" =
          Ok ({["X"; "I"]},
              [GenDecl [TypeSpec (mkIdent 20 "I") None
                (InterfaceType (Some [mkField [mkIdent 21 "M"]
                                        (FuncTypeExpr funcNoResult)]))];
     GenDecl [ValueSpec [mkIdent 10 "X"] (IdentExpr (mkIdent 11 "I")) []]])) as E
    by (vm_compute; reflexivity).
  split; [exact E|].
  pose proof (interface_bodies_not_expanded ifc_load stdOrder 2 "entry.go")
    as (_ & _ & H).
  eapply (H ifc_pkg [] ifc_entry); [reflexivity|reflexivity|exact E|].
  intros o [-> | ->]%ifc_reachable; discriminate.
Defined.

(** C5 as stated fails when the interface is declared in the entry file.
    The scan of the entry file's declarations does traverse the method
    names of the interface; [visit] then looks for declarations by name,
    finds the method [M] of [T], and records it.  In [eif_pkg] no
    identifier that the traversal resolves denotes the method of [T], it
    is reachable only as an implementation of [I], and yet its name is in
    UsedSet (and its declaration is returned). *)
Lemma implementing_method_in_used_set :
  ¬ (∀ packages_Load order fuel entryFile pkg rest entryAST used_ decls S,
       packages_Load entryFile = Some (pkg :: rest) →
       find (λ f, bool_decide (Filename f = entryFile)) (Syntax pkg) = Some entryAST →
       CollectUsedDeclarations packages_Load order fuel entryFile = Ok (used_, decls) →
       ¬ reachable (TypesInfo pkg) (Syntax pkg) (Decls entryAST) S →
       obj_name S ∉ used_).
Proof.
  intros H.
  apply (H eif_load stdOrder 2%nat "entry.go" eif_pkg [] eif_entry _ _ eif_TM
           eq_refl eq_refl eif_result).
  - intros [E|E]%eif_reachable; discriminate E.
  - vm_compute. reflexivity.
Qed.

(** C6.  RetainedDeclarations holds exactly one declaration per retained
    name: the returned slice lines up, element by element, with a
    duplicate-free list of names, which are the used names that some
    declaration of the unit declares; and the declaration kept for a name
    is [lastMatch], the last declaration of the scan (files in order,
    declarations in order) that declares it, so a later match overwrites
    an earlier one. *)
Theorem one_declaration_per_name_last_wins
    packages_Load order fuel entryFile pkg rest used_ decls :
  packages_Load entryFile = Some (pkg :: rest) →
  CollectUsedDeclarations packages_Load order fuel entryFile = Ok (used_, decls) →
  ∃ names : list string,
    NoDup names ∧
    (∀ n, n ∈ names ↔ n ∈ used_ ∧ is_Some (lastMatch (Syntax pkg) n)) ∧
    Forall2 (λ n d, lastMatch (Syntax pkg) n = Some d ∧
                    last (filter (λ d', n ∈ declNames d') (flat_map Decls (Syntax pkg)))
                    = Some d) names decls.
Proof.
  intros Hload Hok.
  apply Collect_Ok in Hok as (pkg' & rest' & entryAST & st & Hl & _ & Hrun & -> & ->).
  rewrite Hload in Hl. inversion Hl; subst pkg' rest'; clear Hl.
  pose proof (seed_lastMatch _ _ _ _ _ Hrun) as Hlast.
  pose proof (rangeOver_perm order (declMap st)) as Hperm.
  assert (∀ n d, (n, d) ∈ rangeOver order (declMap st) ↔ declMap st !! n = Some d)
    as Hin.
  { intros n d. rewrite Hperm. apply elem_of_map_to_list. }
  exists (rangeOver order (declMap st)).*1. split_and!.
  - rewrite Hperm. apply NoDup_fst_map_to_list.
  - intros n. rewrite list_elem_of_fmap. split.
    + intros ([n' d] & -> & Hnd). simpl. apply Hin in Hnd.
      rewrite Hlast in Hnd. case_decide; [|done]. split; [done|by eexists].
    + intros [Hu [d Hd]]. exists (n, d). split; [done|].
      apply Hin. rewrite Hlast. by rewrite decide_True.
  - apply Forall2_fmap, Forall_Forall2_diag, Forall_forall.
    intros [n d] Hnd. simpl. apply Hin in Hnd. rewrite Hlast in Hnd.
    case_decide; [|done]. done.
Qed.

Lemma one_declaration_per_name_last_wins_witness :
  ∃ names : list string,
    NoDup names ∧
    (∀ n, n ∈ names ↔ n ∈ ({["T"; "Run"]} : gset string) ∧
                      is_Some (lastMatch (Syntax col_pkg) n)) ∧
    Forall2 (λ n d, lastMatch (Syntax col_pkg) n = Some d ∧
                    last (filter (λ d', n ∈ declNames d')
                                 (flat_map Decls (Syntax col_pkg))) = Some d)
            names [col_funcRun; col_typeT].
Proof.
  apply (one_declaration_per_name_last_wins col_load stdOrder 3 "entry.go"
           col_pkg []).
  - reflexivity.
  - vm_compute. reflexivity.
Defined.

(** C7, as the code has it.  In a call that succeeds, every object that an
    identifier of the entry file resolves to (as a use, else as a
    definition) is visited and its name used; and for every used name [n]
    and every use-edge [references n S] the object [S] is visited and its
    name used.  The use-edges are: every identifier inside the body of a
    function named [n], resolved as a use, else as a definition; and the
    identifiers that [visitTypeExpr] and [visitExpr] look up, as uses
    only, in the field types of a struct type named [n] and in the type
    and the initializers of a variable or constant named [n]. *)
Theorem use_edges_are_followed
    packages_Load order fuel entryFile pkg rest entryAST used_ decls :
  packages_Load entryFile = Some (pkg :: rest) →
  find (λ f, bool_decide (Filename f = entryFile)) (Syntax pkg) = Some entryAST →
  CollectUsedDeclarations packages_Load order fuel entryFile = Ok (used_, decls) →
  ∃ st,
    seed (TypesInfo pkg) (Syntax pkg) fuel (Decls entryAST) emptyState = Done st ∧
    used_ = used st ∧
    (∀ d id S, d ∈ Decls entryAST → SeeIdent id ∈ walkDecl d →
               resolve (TypesInfo pkg) id = Some S →
               S ∈ visited st ∧ obj_name S ∈ used_) ∧
    (∀ n S, n ∈ used_ → references (TypesInfo pkg) (Syntax pkg) n S →
            S ∈ visited st ∧ obj_name S ∈ used_).
Proof.
  intros Hload Hfind Hok.
  apply Collect_Ok in Hok as (pkg' & rest' & entryAST' & st & Hl & Hf & Hrun & -> & ->).
  rewrite Hload in Hl. inversion Hl; subst pkg' rest'; clear Hl.
  rewrite Hfind in Hf. inversion Hf; subst entryAST'; clear Hf.
  pose proof (seed_used _ _ _ _ _ Hrun) as Hused.
  exists st. split_and!; [done..| |].
  - intros d id S Hd Hid Hr.
    assert (S ∈ visited st) by by eapply seed_targets_visited.
    split; [done|]. apply Hused. eauto.
  - intros n S (o & Ho & <-)%Hused Href.
    assert (S ∈ visited st) by by apply (seed_closed _ _ _ _ _ Hrun o Ho).
    split; [done|]. apply Hused. eauto.
Qed.

Lemma use_edges_are_followed_witness : "a" ∈ sel_used.
Proof.
  assert ("V" ∈ sel_used) as HV by (vm_compute; reflexivity).
  destruct sel_result as [decls E].
  destruct (use_edges_are_followed sel_load stdOrder 5 "entry.go" sel_pkg []
              (mkFile "entry.go"
                 [FuncDecl None (mkIdent 10 "Entry") funcNoResult
                    (Some [AssignStmt [IdentExpr (mkIdent 11 "_")]
                                      [IdentExpr (mkIdent 12 "V")]])])
              sel_used decls eq_refl eq_refl E) as (st & _ & _ & _ & H).
  destruct (H "V" sel_a HV) as [_ Ha]; [|exact Ha].
  apply (ref_value _ _ _ _ [ValueSpec [mkIdent 20 "V"] NilExpr [sel_init]]
             [mkIdent 20 "V"] NilExpr [sel_init] (mkIdent 20 "V") sel_init
             (mkIdent 21 "a")); try reflexivity;
    apply list_elem_of_In; simpl; tauto.
Defined.

(** C7 as stated fails: the member name of a selector inside an
    initializer is resolved by the Resolver (as a use) but [visitExpr]
    walks the base of a selector only.  In [sel_pkg] the variable [V] is
    used, the identifier [b] of its initializer [a.b] resolves to the
    field [b], and ["b"] is not in UsedSet. *)
Lemma selector_member_not_visited :
  ¬ (∀ packages_Load order fuel entryFile pkg rest used_ decls,
       packages_Load entryFile = Some (pkg :: rest) →
       CollectUsedDeclarations packages_Load order fuel entryFile = Ok (used_, decls) →
       (∀ Recv Name_ Type_ body id S,
          FuncDecl Recv Name_ Type_ (Some body) ∈ allDecls (Syntax pkg) →
          Name Name_ ∈ used_ → SeeIdent id ∈ walkStmt (BlockStmt body) →
          resolve (TypesInfo pkg) id = Some S → obj_name S ∈ used_) ∧
       (∀ Specs Name_ TypeParams fields field id S,
          GenDecl Specs ∈ allDecls (Syntax pkg) →
          TypeSpec Name_ TypeParams (StructType (Some fields)) ∈ Specs →
          Name Name_ ∈ used_ → field ∈ fields →
          SeeIdent id ∈ walkExpr (Field_Type field) →
          resolve (TypesInfo pkg) id = Some S → obj_name S ∈ used_) ∧
       (∀ Specs Names Type_ Values name val id S,
          GenDecl Specs ∈ allDecls (Syntax pkg) →
          ValueSpec Names Type_ Values ∈ Specs →
          name ∈ Names → Name name ∈ used_ → val ∈ Values →
          SeeIdent id ∈ walkExpr val →
          resolve (TypesInfo pkg) id = Some S → obj_name S ∈ used_)).
Proof.
  intros H. destruct sel_result as [decls E].
  destruct (H sel_load stdOrder 5%nat "entry.go" sel_pkg [] sel_used decls
              eq_refl E) as (_ & _ & Hval).
  assert ("b" ∈ sel_used) as Hb.
  { apply (Hval [ValueSpec [mkIdent 20 "V"] NilExpr [sel_init]]
             [mkIdent 20 "V"] NilExpr [sel_init] (mkIdent 20 "V") sel_init
             (mkIdent 22 "b") sel_b); try reflexivity;
      try (apply list_elem_of_In; simpl; tauto). }
  vm_compute in Hb. discriminate Hb.
Qed.

(** C8.  Two runs on the same entry file and the same resolved unit,
    whatever order each run's [range] over [declMap] takes and whatever
    fuel each has, return the same UsedSet and the same declarations up to
    the order of the slice; in particular the declared names of the
    returned declarations form the same set. *)
Theorem collect_deterministic
    packages_Load order1 order2 fuel1 fuel2 entryFile used1 decls1 used2 decls2 :
  CollectUsedDeclarations packages_Load order1 fuel1 entryFile = Ok (used1, decls1) →
  CollectUsedDeclarations packages_Load order2 fuel2 entryFile = Ok (used2, decls2) →
  used1 = used2 ∧ decls1 ≡ₚ decls2 ∧
  ∀ n, (∃ d, d ∈ decls1 ∧ n ∈ declNames d) ↔ (∃ d, d ∈ decls2 ∧ n ∈ declNames d).
Proof.
  intros (pkg & rest & entryAST & st1 & Hl1 & Hf1 & Hrun1 & -> & ->)%Collect_Ok
         (pkg' & rest' & entryAST' & st2 & Hl2 & Hf2 & Hrun2 & -> & ->)%Collect_Ok.
  rewrite Hl1 in Hl2. inversion Hl2; subst pkg' rest'; clear Hl2.
  rewrite Hf1 in Hf2. inversion Hf2; subst entryAST'; clear Hf2.
  assert (st1 = st2) as <-.
  { pose proof (seed_fuel_mono (TypesInfo pkg) (Syntax pkg) fuel1 (fuel1 `max` fuel2)
                  (Decls entryAST) emptyState) as H1.
    pose proof (seed_fuel_mono (TypesInfo pkg) (Syntax pkg) fuel2 (fuel1 `max` fuel2)
                  (Decls entryAST) emptyState) as H2.
    rewrite Hrun1 in H1. rewrite Hrun2 in H2.
    rewrite H1 in H2 by (done || lia). specialize (H2 ltac:(lia) ltac:(done)).
    by inversion H2. }
  assert ((rangeOver order1 (declMap st1)).*2 ≡ₚ (rangeOver order2 (declMap st1)).*2)
    as Hperm by by rewrite !rangeOver_perm.
  split_and!; [done|done|].
  intros n. split; intros (d & Hd & Hn); exists d; (split; [|done]).
  - by rewrite <- Hperm.
  - by rewrite Hperm.
Qed.

Lemma collect_deterministic_witness :
  ({["T"; "Run"]} : gset string) = {["T"; "Run"]} ∧
  [col_funcRun; col_typeT] ≡ₚ [col_typeT; col_funcRun] ∧
  ∀ n, (∃ d, d ∈ [col_funcRun; col_typeT] ∧ n ∈ declNames d) ↔
       (∃ d, d ∈ [col_typeT; col_funcRun] ∧ n ∈ declNames d).
Proof.
  apply (collect_deterministic col_load stdOrder revOrder 3 7 "entry.go").
  - vm_compute. reflexivity.
  - vm_compute. reflexivity.
Defined.

(** C9, as the code has it.  Once the filtered source is written, [main]
    calls [autoFixImports] once and drops whatever error it returns: in
    every case [main] returns normally and its last action is to log the
    success message.  If the file cannot be read back, or if
    [imports.Process] returns an error, [autoFixImports] returns an error
    with the file system exactly as [WriteFilteredSource] left it, having
    made one read and at most one call of [imports.Process] and no write.
    If both succeed, [autoFixImports] makes one call of [os.WriteFile];
    its error is the error of this call (dropped by [main] like the
    others) and the file system is the one this call left. *)
Theorem normalization_failure_is_discarded
    {FS} (env : Env FS) order nameOrder fuel inputPath outputDir w
    usedSymbols decls w3 :
  inputPath ≠ "" →
  CollectUsedDeclarations (packages_Load_at env (fs w)) order fuel inputPath
  = Ok (usedSymbols, decls) →
  WriteFilteredSource env inputPath
    (filepath_Join env outputDir (filepath_Base env inputPath)) decls
    (logAll (MsgHeader :: map MsgName (rangeNames nameOrder usedSymbols))
            (record (EvLoad inputPath) w))
  = (w3, false) →
  ∃ w4 failed,
    autoFixImports env (filepath_Join env outputDir (filepath_Base env inputPath)) w3
    = (w4, failed) ∧
    main env order nameOrder fuel inputPath outputDir w =
    Returned (record (EvLog (MsgCut (filepath_Join env outputDir (filepath_Base env inputPath))))
                     w4) ∧
    (os_ReadFile env (fs w3) (filepath_Join env outputDir (filepath_Base env inputPath))
     = None →
     failed = true ∧ fs w4 = fs w3 ∧
     journal w4 =
       journal w3 ++ [EvReadFile (filepath_Join env outputDir (filepath_Base env inputPath))]) ∧
    (∀ src,
       os_ReadFile env (fs w3) (filepath_Join env outputDir (filepath_Base env inputPath))
       = Some src →
       imports_Process env (filepath_Join env outputDir (filepath_Base env inputPath)) src
       = None →
       failed = true ∧ fs w4 = fs w3 ∧
       journal w4 =
         journal w3 ++ [EvReadFile (filepath_Join env outputDir (filepath_Base env inputPath));
                        EvProcess (filepath_Join env outputDir (filepath_Base env inputPath))]) ∧
    (∀ src fixed,
       os_ReadFile env (fs w3) (filepath_Join env outputDir (filepath_Base env inputPath))
       = Some src →
       imports_Process env (filepath_Join env outputDir (filepath_Base env inputPath)) src
       = Some fixed →
       os_WriteFile env (fs w3) (filepath_Join env outputDir (filepath_Base env inputPath))
                    fixed
       = (fs w4, failed) ∧
       journal w4 =
         journal w3 ++ [EvReadFile (filepath_Join env outputDir (filepath_Base env inputPath));
                        EvProcess (filepath_Join env outputDir (filepath_Base env inputPath));
                        EvWriteFile (filepath_Join env outputDir
                                       (filepath_Base env inputPath)) fixed]).
Proof.
  intros Hin Hok Hwrite.
  set (outPath := filepath_Join env outputDir (filepath_Base env inputPath)) in *.
  destruct (autoFixImports env outPath w3) as [w4 failed] eqn:Hauto.
  exists w4, failed. split; [done|]. split.
  { unfold main. rewrite decide_False by done. rewrite Hok.
    fold outPath. rewrite Hwrite, Hauto. done. }
  revert Hauto. unfold autoFixImports. simpl.
  destruct (os_ReadFile env (fs w3) outPath) as [src|] eqn:Hread.
  - destruct (imports_Process env outPath src) as [fixed|] eqn:Hproc.
    + destruct (os_WriteFile env (fs w3) outPath fixed) as [fs1 failed1] eqn:Hwr.
      intros H. inversion H; subst. simpl. split_and!; [done|congruence|].
      intros src' fixed' Hs Hf. inversion Hs; subst src'.
      rewrite Hproc in Hf. inversion Hf; subst fixed'.
      rewrite Hwr. split; [done|]. by rewrite <- !app_assoc.
    + intros H. inversion H; subst. simpl. split_and!; [done| |].
      * intros src' _ _. split_and!; [done..|]. by rewrite <- app_assoc.
      * intros src' fixed' Hs Hf. inversion Hs; subst src'. congruence.
  - intros H. inversion H; subst. simpl. split_and!; done.
Qed.

(** The world after [autoFixImports] ran on [worldWritten] and its final
    [os.WriteFile] failed after truncating the file. *)
Definition worldTruncated : World (gmap string string) :=
  mkWorld (<["output/entry.go" := ""]> (fs worldWritten))
          (journalWritten ++
           [EvReadFile "output/entry.go"; EvProcess "output/entry.go";
            EvWriteFile "output/entry.go" "package main; func F() { F() }"]).

Lemma normalization_failure_is_discarded_witness :
  autoFixImports (mapEnv false true) "output/entry.go" worldWritten
  = (worldTruncated, true) ∧
  main (mapEnv false true) stdOrder stdNames 1 "entry.go" "output" world0 =
  Returned (record (EvLog (MsgCut "output/entry.go")) worldTruncated).
Proof.
  destruct (normalization_failure_is_discarded (mapEnv false true) stdOrder stdNames
              1 "entry.go" "output" world0 {["F"]} (Decls rec_entry) worldWritten)
    as (w4 & failed & Hauto & Hmain & _).
  - discriminate.
  - vm_compute. reflexivity.
  - vm_compute. reflexivity.
  - assert (autoFixImports (mapEnv false true) "output/entry.go" worldWritten
            = (worldTruncated, true)) as E by (vm_compute; reflexivity).
    split; [exact E|].
    change (filepath_Join (mapEnv false true) "output"
              (filepath_Base (mapEnv false true) "entry.go"))
      with "output/entry.go" in Hauto, Hmain.
    rewrite E in Hauto. inversion Hauto; subst. exact Hmain.
Defined.

(** C9 as stated fails when the error of [autoFixImports] is that of its
    final [os.WriteFile]: the file is truncated before the write fails,
    [autoFixImports] returns the error, [main] drops it, and the output
    file no longer holds what [WriteFilteredSource] wrote. *)
Lemma failed_write_changes_output :
  ¬ (∀ FS (env : Env FS) order nameOrder fuel inputPath outputDir w
       usedSymbols decls w3 w4,
       inputPath ≠ "" →
       CollectUsedDeclarations (packages_Load_at env (fs w)) order fuel inputPath
       = Ok (usedSymbols, decls) →
       WriteFilteredSource env inputPath
         (filepath_Join env outputDir (filepath_Base env inputPath)) decls
         (logAll (MsgHeader :: map MsgName (rangeNames nameOrder usedSymbols))
                 (record (EvLoad inputPath) w))
       = (w3, false) →
       autoFixImports env (filepath_Join env outputDir (filepath_Base env inputPath)) w3
       = (w4, true) →
       main env order nameOrder fuel inputPath outputDir w =
       Returned (record (EvLog (MsgCut (filepath_Join env outputDir
                                          (filepath_Base env inputPath)))) w4) ∧
       os_ReadFile env (fs w4) (filepath_Join env outputDir (filepath_Base env inputPath))
       = os_ReadFile env (fs w3) (filepath_Join env outputDir (filepath_Base env inputPath))).
Proof.
  intros H.
  destruct (H (gmap string string) (mapEnv false true) stdOrder stdNames 1%nat
              "entry.go" "output" world0 {["F"]} (Decls rec_entry) worldWritten
              (mkWorld (<["output/entry.go" := ""]> (fs worldWritten))
                       (journalWritten ++
                        [EvReadFile "output/entry.go"; EvProcess "output/entry.go";
                         EvWriteFile "output/entry.go" "package main; func F() { F() }"])))
    as [_ Hsame].
  - discriminate.
  - vm_compute. reflexivity.
  - vm_compute. reflexivity.
  - vm_compute. reflexivity.
  - vm_compute in Hsame. discriminate Hsame.
Qed.

(** C10.  Walking [nil] and the forms without a case is safe.  Whatever
    the callback [visit] is (even one that always panics), [visitTypeExpr]
    on a [nil] expression, and [visitExpr] on a literal constant, a
    [BadExpr], a function literal, [nil] or any form that its type switch
    does not handle, return the state unchanged: no failure, no symbol
    visited.  A composite literal with an elided type walks its elements
    only. *)
Theorem nil_and_unhandled_forms_are_safe info visit st :
  visitTypeExpr NilExpr info visit st = Done st ∧
  (∀ Elts, visitExpr (CompositeLit NilExpr Elts) info visit st =
           forEach (λ elt, visitExpr elt info visit) Elts st) ∧
  (∀ Value, visitExpr (BasicLit Value) info visit st = Done st) ∧
  visitExpr BadExpr info visit st = Done st ∧
  (∀ Type_ Body, visitExpr (FuncLit Type_ Body) info visit st = Done st) ∧
  visitExpr NilExpr info visit st = Done st ∧
  (∀ e, handledByVisitExpr e = false →
        visitExpr e info visit st = Done st ∧ exprWalk e = []).
Proof.
  split_and!; try done.
  intros e He. by destruct e.
Qed.

Lemma nil_and_unhandled_forms_are_safe_witness :
  visitExpr (StarExpr (IdentExpr (mkIdent 1 "p"))) cyc_info (λ _, panic) emptyState
  = Done emptyState.
Proof.
  pose proof (nil_and_unhandled_forms_are_safe cyc_info (λ _, panic) emptyState)
    as (_ & _ & _ & _ & _ & _ & H).
  apply (H (StarExpr (IdentExpr (mkIdent 1 "p")))). reflexivity.
Defined.

(** * Further properties of the code *)

(** ** The closure, exactly *)

Lemma seed_visited_reachable info files fuel entryDecls st :
  seed info files fuel entryDecls emptyState = Done st →
  ∀ o, o ∈ visited st ↔ reachable info files entryDecls o.
Proof.
  intros Hrun o. split; [by eapply seed_sound|].
  induction 1 as [d id o Hd Hid Hr|o o' _ IH Href].
  - by eapply seed_targets_visited.
  - by apply (seed_closed _ _ _ _ _ Hrun o IH).
Qed.

Lemma seed_used_reachable info files fuel entryDecls st :
  seed info files fuel entryDecls emptyState = Done st →
  ∀ n, n ∈ used st ↔ ∃ o, reachable info files entryDecls o ∧ obj_name o = n.
Proof.
  intros Hrun n. rewrite (seed_used _ _ _ _ _ Hrun).
  split; intros (o & Ho & Hn); exists o; (split; [|done]);
    by apply (seed_visited_reachable _ _ _ _ _ Hrun).
Qed.

(** X1.  UsedSet is exactly the set of names of the reachability closure:
    a name is returned in UsedSet if and only if it is the name of an
    object that is reached from an identifier of the entry file's
    declarations through use-edges. *)
Theorem used_set_is_closure_names
    packages_Load order fuel entryFile pkg rest entryAST used_ decls :
  packages_Load entryFile = Some (pkg :: rest) →
  find (λ f, bool_decide (Filename f = entryFile)) (Syntax pkg) = Some entryAST →
  CollectUsedDeclarations packages_Load order fuel entryFile = Ok (used_, decls) →
  ∀ n, n ∈ used_ ↔
       ∃ o, reachable (TypesInfo pkg) (Syntax pkg) (Decls entryAST) o ∧
            obj_name o = n.
Proof.
  intros Hload Hfind Hok.
  apply Collect_Ok in Hok as (pkg' & rest' & entryAST' & st & Hl & Hf & Hrun & -> & _).
  rewrite Hload in Hl. inversion Hl; subst pkg' rest'; clear Hl.
  rewrite Hfind in Hf. inversion Hf; subst entryAST'; clear Hf.
  by apply seed_used_reachable with fuel.
Qed.

Lemma cyc_result :
  CollectUsedDeclarations cyc_load stdOrder 3 "entry.go" =
  Ok ({["Entry"; "A"; "B"]}, flat_map Decls (Syntax cyc_pkg)).
Proof. vm_compute. reflexivity. Qed.

Lemma used_set_is_closure_names_witness :
  "B" ∈ ({["Entry"; "A"; "B"]} : gset string) ↔
  ∃ o, reachable cyc_info (Syntax cyc_pkg)
         [FuncDecl None (mkIdent 10 "Entry") funcNoResult (Some [callStmt 11 "A"])] o ∧
       obj_name o = "B".
Proof.
  apply (used_set_is_closure_names cyc_load stdOrder 3 "entry.go" cyc_pkg []
           (mkFile "entry.go"
              [FuncDecl None (mkIdent 10 "Entry") funcNoResult
                 (Some [callStmt 11 "A"])])
           _ (flat_map Decls (Syntax cyc_pkg))).
  - reflexivity.
  - reflexivity.
  - exact cyc_result.
Defined.

(** ** Growing the unit *)

Lemma references_mono info info' files files' n S :
  (∀ id o, resolve info id = Some o → resolve info' id = Some o) →
  (∀ id o, usesOf info id = Some o → usesOf info' id = Some o) →
  (∀ d, d ∈ allDecls files → d ∈ allDecls files') →
  references info files n S → references info' files' n S.
Proof.
  intros Hres Huses Hsub
    [Recv Name_ Type_ body id Hd Hn Hid Hr
    |Specs Name_ tp fields field id Hd Hs Hn Hf Hid Hr
    |Specs Names Type_ Values name id Hd Hs Hnm Hn Hid Hr
    |Specs Names Type_ Values name val id Hd Hs Hnm Hn Hv Hid Hr].
  - eapply ref_body; eauto.
  - eapply ref_field; eauto.
  - eapply ref_type; eauto.
  - eapply ref_value; eauto.
Qed.

Lemma reachable_mono info info' files files' entryDecls entryDecls' o :
  (∀ id o, resolve info id = Some o → resolve info' id = Some o) →
  (∀ id o, usesOf info id = Some o → usesOf info' id = Some o) →
  (∀ d, d ∈ allDecls files → d ∈ allDecls files') →
  (∀ d, d ∈ entryDecls → d ∈ entryDecls') →
  reachable info files entryDecls o → reachable info' files' entryDecls' o.
Proof.
  intros Hres Huses Hsub Hentry.
  induction 1 as [d id o Hd Hid Hr|o o' _ IH Href].
  - eapply reach_seed; eauto.
  - eapply reach_step; [done|]. by eapply references_mono.
Qed.

(** X2.  Adding code never removes a used name.  Take two compilation
    units such that every declaration of the first is a declaration of
    the second, every declaration of the first entry file is in the
    second entry file, and every identifier that the first Resolver table
    resolves is resolved the same way by the second.  If both calls
    succeed, the first UsedSet is included in the second.  In particular
    UsedSet does not depend on the order of the files or of the
    declarations. *)
Theorem used_set_grows_with_the_unit
    load1 load2 order1 order2 fuel1 fuel2 entryFile1 entryFile2
    pkg1 rest1 entryAST1 pkg2 rest2 entryAST2 used1 decls1 used2 decls2 :
  load1 entryFile1 = Some (pkg1 :: rest1) →
  find (λ f, bool_decide (Filename f = entryFile1)) (Syntax pkg1) = Some entryAST1 →
  load2 entryFile2 = Some (pkg2 :: rest2) →
  find (λ f, bool_decide (Filename f = entryFile2)) (Syntax pkg2) = Some entryAST2 →
  (∀ id o, resolve (TypesInfo pkg1) id = Some o → resolve (TypesInfo pkg2) id = Some o) →
  (∀ id o, usesOf (TypesInfo pkg1) id = Some o → usesOf (TypesInfo pkg2) id = Some o) →
  (∀ d, d ∈ allDecls (Syntax pkg1) → d ∈ allDecls (Syntax pkg2)) →
  (∀ d, d ∈ Decls entryAST1 → d ∈ Decls entryAST2) →
  CollectUsedDeclarations load1 order1 fuel1 entryFile1 = Ok (used1, decls1) →
  CollectUsedDeclarations load2 order2 fuel2 entryFile2 = Ok (used2, decls2) →
  used1 ⊆ used2.
Proof.
  intros Hl1 Hf1 Hl2 Hf2 Hres Huses Hsub Hentry Hok1 Hok2 n Hn.
  apply Collect_Ok in Hok1 as (p1 & r1 & e1 & st1 & Hl & Hf & Hrun1 & -> & _).
  rewrite Hl1 in Hl. inversion Hl; subst p1 r1; clear Hl.
  rewrite Hf1 in Hf. inversion Hf; subst e1; clear Hf.
  apply Collect_Ok in Hok2 as (p2 & r2 & e2 & st2 & Hl & Hf & Hrun2 & -> & _).
  rewrite Hl2 in Hl. inversion Hl; subst p2 r2; clear Hl.
  rewrite Hf2 in Hf. inversion Hf; subst e2; clear Hf.
  apply (seed_used_reachable _ _ _ _ _ Hrun1) in Hn as (o & Ho & Hname).
  apply (seed_used_reachable _ _ _ _ _ Hrun2).
  exists o. split; [|done]. by eapply reachable_mono.
Qed.

(** The unit [cyc_pkg] without its second file. *)
Definition cyc_entryFile : File :=
  mkFile "entry.go"
    [FuncDecl None (mkIdent 10 "Entry") funcNoResult (Some [callStmt 11 "A"])].

Definition cyc_small_pkg : Package := mkPackage cyc_info [cyc_entryFile].

Definition cyc_small_load (entryFile : string) : option (list Package) :=
  Some [cyc_small_pkg].

Lemma cyc_small_result :
  CollectUsedDeclarations cyc_small_load stdOrder 2 "entry.go" =
  Ok ({["Entry"; "A"]}, Decls cyc_entryFile).
Proof. vm_compute. reflexivity. Qed.

Lemma used_set_grows_with_the_unit_witness :
  ({["Entry"; "A"]} : gset string) ⊆ {["Entry"; "A"; "B"]}.
Proof.
  apply (used_set_grows_with_the_unit cyc_small_load cyc_load stdOrder revOrder
           2 3 "entry.go" "entry.go" cyc_small_pkg [] cyc_entryFile
           cyc_pkg [] cyc_entryFile _ (Decls cyc_entryFile) _
           (reverse (flat_map Decls (Syntax cyc_pkg))));
    try exact cyc_small_result; try (vm_compute; reflexivity); try done.
  intros d [<-|[]]%list_elem_of_In. apply list_elem_of_In. simpl. tauto.
Defined.

(** ** The result is a fixed point *)

Lemma runOps_noop info files fuel ops st :
  OPanic ∉ ops → (∀ n d, OSet n d ∉ ops) →
  (∀ o, OVisit (Some o) ∈ ops → o ∈ visited st) →
  runOps (visit info files fuel) ops st = Done st.
Proof.
  induction ops as [|op ops IH]; intros Hp Hs Hv; [done|].
  apply not_elem_of_cons in Hp as [Hop Hp].
  rewrite runOps_cons. unfold seq.
  assert (runOp (visit info files fuel) op st = Done st) as ->.
  { destruct op as [[o|]|n d|]; simpl.
    - apply visit_visited, Hv. left.
    - apply visit_nil.
    - destruct (Hs n d). left.
    - done. }
  apply IH; [done| |].
  - intros n d Hin. apply (Hs n d). by right.
  - intros o Hin. apply Hv. by right.
Qed.

(** X3.  The state in which the traversal ends is a fixed point of it:
    running the loop over the entry file's declarations again from that
    state, over the same declarations or over any selection or repetition
    of them, with any fuel (even none), returns the same state; and so
    does a further call of [visit] on any object of the closure. *)
Theorem traversal_ends_in_a_fixed_point info files fuel entryDecls st :
  seed info files fuel entryDecls emptyState = Done st →
  (∀ fuel' entryDecls', (∀ d, d ∈ entryDecls' → d ∈ entryDecls) →
     seed info files fuel' entryDecls' st = Done st) ∧
  (∀ fuel' o, reachable info files entryDecls o →
     visit info files fuel' (Some o) st = Done st).
Proof.
  intros Hrun. split.
  - intros fuel' ds' Hsub. rewrite seed_ops.
    pose proof Hrun as Hops. rewrite seed_ops in Hops.
    apply runOps_noop.
    + apply runOps_Done_no_panic in Hops. intros Hin. apply Hops.
      rewrite seedOps_eq in *. apply walkOps_panic in Hin. apply walkOps_panic.
      apply elem_of_flat_map in Hin as (d & Hd & Hin).
      apply elem_of_flat_map. eauto.
    + intros n d Hin. rewrite seedOps_eq in Hin. by apply walkOps_set in Hin.
    + intros o (d & id & Hd & Hid & Hr)%seedOps_visit.
      eapply seed_targets_visited; eauto.
  - intros fuel' o Ho. apply visit_visited.
    by apply (seed_visited_reachable _ _ _ _ _ Hrun).
Qed.

Lemma traversal_ends_in_a_fixed_point_witness :
  ∃ st,
    seed cyc_info (Syntax cyc_pkg) 3 (Decls cyc_entryFile) emptyState = Done st ∧
    seed cyc_info (Syntax cyc_pkg) 0
      (Decls cyc_entryFile ++ Decls cyc_entryFile) st = Done st.
Proof.
  destruct (seed cyc_info (Syntax cyc_pkg) 3 (Decls cyc_entryFile) emptyState)
    as [st| |] eqn:E; [|by vm_compute in E..].
  exists st. split; [done|].
  apply (traversal_ends_in_a_fixed_point _ _ _ _ _ E).
  intros d [?|?]%elem_of_app; done.
Defined.

(** ** When the traversal completes *)

(** A declaration in which no walk of [visit] dereferences a nil field
    list or meets a nil node: [typeWalk] and [exprWalk] hold a
    [WalkPanic] exactly where [visitTypeExpr] ranges over the list of a
    nil [*ast.FieldList], and [bodyWalk] where [ast.Inspect] meets a nil
    node. *)
Definition specPanicFree (spec : Spec) : Prop :=
  match spec with
  | TypeSpec _ _ (StructType Fields) =>
      WalkPanic ∉ derefFields (λ field, typeWalk (Field_Type field)) Fields
  | ValueSpec _ Type_ Values =>
      WalkPanic ∉ typeWalk Type_ ++ flat_map exprWalk Values
  | _ => True
  end.

Definition declPanicFree (d : Decl) : Prop :=
  match d with
  | FuncDecl _ _ _ Body => WalkPanic ∉ bodyWalk Body
  | GenDecl Specs => Forall specPanicFree Specs
  | BadDecl => True
  end.

Lemma declPanicFree_ops info n d : declPanicFree d → OPanic ∉ declOps info n d.
Proof.
  destruct d as [|Specs|Recv Name_ Type_ Body]; simpl.
  - intros _. apply not_elem_of_nil.
  - intros Hall (spec & Hs & Hin)%elem_of_flat_map.
    rewrite Forall_forall in Hall. specialize (Hall spec Hs).
    destruct spec as [|Names Ty Values|Name_ tp Ty]; simpl in *.
    + by apply elem_of_nil in Hin.
    + apply elem_of_flat_map in Hin as (name & _ & Hin).
      case_decide; [|by apply elem_of_nil in Hin].
      apply elem_of_cons in Hin as [|Hin]; [done|].
      by apply walkOps_panic in Hin.
    + case_decide; [|by apply elem_of_nil in Hin].
      apply elem_of_cons in Hin as [|Hin]; [done|].
      destruct Ty; try by apply elem_of_nil in Hin.
      by apply walkOps_panic in Hin.
  - intros Hfree Hin. case_decide; [|by apply elem_of_nil in Hin].
    apply elem_of_cons in Hin as [|Hin]; [done|].
    by apply walkOps_panic in Hin.
Qed.

(** X4.  [CollectUsedDeclarations] returns a result, and neither an error
    nor a panic, whenever the package is loaded, the entry file is found,
    no walk of the entry file meets a nil node, and no declaration of the
    unit makes a walker dereference a nil field list (no struct type
    without field list, no walked function type without parameter or
    result list); fuel from the number of objects the Resolver knows on
    is enough. *)
Theorem collect_returns_when_no_nil_list_is_walked
    packages_Load order (fuel : nat) entryFile pkg rest entryAST :
  packages_Load entryFile = Some (pkg :: rest) →
  find (λ f, bool_decide (Filename f = entryFile)) (Syntax pkg) = Some entryAST →
  WalkPanic ∉ flat_map walkDecl (Decls entryAST) →
  Forall declPanicFree (allDecls (Syntax pkg)) →
  (size (objects (TypesInfo pkg)) ≤ fuel)%nat →
  ∃ used_ decls,
    CollectUsedDeclarations packages_Load order fuel entryFile = Ok (used_, decls).
Proof.
  intros Hload Hfind Hentry Hall Hsz.
  destruct (seed_completes (TypesInfo pkg) (Syntax pkg) fuel (Decls entryAST))
    as [st Hrun]; [|done|].
  - split.
    + rewrite seedOps_eq. by intros ?%walkOps_panic.
    + intros n (d & Hd & Hin)%elem_of_flat_map.
      rewrite Forall_forall in Hall.
      by apply (declPanicFree_ops (TypesInfo pkg) n d (Hall d Hd)).
  - unfold CollectUsedDeclarations. rewrite Hload, Hfind, Hrun. eauto.
Qed.

Lemma collect_returns_when_no_nil_list_is_walked_witness :
  ∃ used_ decls,
    CollectUsedDeclarations cyc_load revOrder 3 "entry.go" = Ok (used_, decls).
Proof.
  apply (collect_returns_when_no_nil_list_is_walked cyc_load revOrder 3 "entry.go"
           cyc_pkg [] cyc_entryFile).
  - reflexivity.
  - reflexivity.
  - intros Hin%list_elem_of_In. simpl in Hin.
    repeat destruct Hin as [Hin|Hin]; try discriminate Hin. done.
  - repeat constructor; simpl; intros Hin%list_elem_of_In; simpl in Hin;
      repeat destruct Hin as [Hin|Hin]; try discriminate Hin; done.
  - vm_compute. lia.
Defined.

(** ** What the walkers read *)

(** X5.  The two walkers read [info.Uses] only: two resolution tables
    with the same [Uses] map, whatever their [Defs] maps, make
    [visitTypeExpr] and [visitExpr] behave alike on every expression, for
    every callback and from every state. *)
Theorem walkers_read_uses_only info info' expr visit st :
  Uses info = Uses info' →
  visitTypeExpr expr info visit st = visitTypeExpr expr info' visit st ∧
  visitExpr expr info visit st = visitExpr expr info' visit st.
Proof.
  intros HU. rewrite !visitTypeExpr_walk, !visitExpr_walk. by rewrite HU.
Qed.

Lemma walkers_read_uses_only_witness :
  visitExpr sel_init sel_info (visit sel_info (Syntax sel_pkg) 3) emptyState =
  visitExpr sel_init (mkInfo (Uses sel_info) ∅) (visit sel_info (Syntax sel_pkg) 3)
            emptyState.
Proof.
  apply (walkers_read_uses_only sel_info (mkInfo (Uses sel_info) ∅)). reflexivity.
Defined.

(** X6.  A walker calls [visit] on what [info.Uses] holds for a fixed
    sequence of identifiers, which depends on the expression alone (not on
    the callback, the state or the table), and every identifier of this
    sequence is an identifier node of the expression, as [ast.Inspect]
    meets it: the walkers look up no identifier from elsewhere. *)
Theorem walkers_look_up_nodes_of_the_expression expr :
  ∃ typeIds exprIds : list WalkEvent,
    (∀ info visit st,
       visitTypeExpr expr info visit st =
       Inspect typeIds (λ id, visit (Uses info !! ident_ptr id)) st) ∧
    (∀ info visit st,
       visitExpr expr info visit st =
       Inspect exprIds (λ id, visit (Uses info !! ident_ptr id)) st) ∧
    (∀ id, SeeIdent id ∈ typeIds ∨ SeeIdent id ∈ exprIds →
           SeeIdent id ∈ walkExpr expr).
Proof.
  exists (typeWalk expr), (exprWalk expr). split_and!.
  - intros. apply visitTypeExpr_walk.
  - intros. apply visitExpr_walk.
  - intros id [?|?]; [by apply typeWalk_sub|by apply exprWalk_sub].
Qed.

(** ** What is returned, and what is not *)

(** X7.  Only declarations with a used name are returned: every returned
    declaration declares a name of UsedSet.  So a declaration none of
    whose names is used is dropped, and a declaration that declares no
    name at all, such as an import declaration or a [BadDecl], is never
    returned. *)
Theorem only_declarations_with_a_used_name_are_returned
    packages_Load order fuel entryFile used_ decls :
  CollectUsedDeclarations packages_Load order fuel entryFile = Ok (used_, decls) →
  (∀ d, d ∈ decls → ∃ n, n ∈ used_ ∧ n ∈ declNames d) ∧
  (∀ d, (∀ n, n ∈ declNames d → n ∉ used_) → d ∉ decls) ∧
  (∀ d, declNames d = [] → d ∉ decls).
Proof.
  intros (pkg & rest & entryAST & st & Hl & Hf & Hrun & -> & ->)%Collect_Ok.
  pose proof (seed_lastMatch _ _ _ _ _ Hrun) as Hlast.
  assert (∀ d, d ∈ (rangeOver order (declMap st)).*2 →
               ∃ n, n ∈ used st ∧ n ∈ declNames d) as H.
  { intros d [n Hn]%rangeOver_values. rewrite Hlast in Hn.
    case_decide; [|done]. apply lastMatch_Some in Hn as [_ ?]. eauto. }
  split_and!; [done| |].
  - intros d Hnone (n & Hu & Hn)%H. by apply (Hnone n).
  - intros d Hnil (n & _ & Hn)%H. rewrite Hnil in Hn. by apply elem_of_nil in Hn.
Qed.

Lemma only_declarations_with_a_used_name_are_returned_witness :
  GenDecl [ImportSpec None "fmt"] ∉ [eif_methodM; eif_declI].
Proof.
  pose proof (only_declarations_with_a_used_name_are_returned eif_load stdOrder 2
                "entry.go" _ _ eif_result) as (_ & _ & H).
  apply H. reflexivity.
Defined.

Lemma runOps_all_nil info files fuel ops st :
  (∀ op, op ∈ ops → op = OVisit None) →
  runOps (visit info files fuel) ops st = Done st.
Proof.
  intros Hall. apply runOps_noop.
  - intros Hin. by apply Hall in Hin.
  - intros n d Hin. by apply Hall in Hin.
  - intros o Hin. by apply Hall in Hin.
Qed.

(** X8.  When the Resolver resolves no identifier of the entry file (in
    particular when the entry file has no declaration), the call
    succeeds with an empty UsedSet and no declaration at all, whatever
    the fuel (even none) and the rest of the unit: the entry file's own
    declarations are not returned either. *)
Theorem unresolved_entry_file_yields_nothing
    packages_Load order fuel entryFile pkg rest entryAST :
  packages_Load entryFile = Some (pkg :: rest) →
  find (λ f, bool_decide (Filename f = entryFile)) (Syntax pkg) = Some entryAST →
  WalkPanic ∉ flat_map walkDecl (Decls entryAST) →
  (∀ d id, d ∈ Decls entryAST → SeeIdent id ∈ walkDecl d →
           resolve (TypesInfo pkg) id = None) →
  CollectUsedDeclarations packages_Load order fuel entryFile = Ok (∅, []).
Proof.
  intros Hload Hfind Hnil Hnone.
  assert (seed (TypesInfo pkg) (Syntax pkg) fuel (Decls entryAST) emptyState
          = Done emptyState) as Hrun.
  { rewrite seed_ops. apply runOps_all_nil. intros op Hin.
    rewrite seedOps_eq in Hin. apply elem_of_list_map in Hin as ([id|] & Hev & ->).
    - apply elem_of_flat_map in Hev as (d & Hd & Hid).
      by rewrite (Hnone d id Hd Hid).
    - done. }
  unfold CollectUsedDeclarations. rewrite Hload, Hfind, Hrun. simpl.
  pose proof (rangeOver_perm order ∅) as Hperm.
  rewrite map_to_list_empty in Hperm. apply Permutation_nil_r in Hperm.
  by rewrite Hperm.
Qed.

(** The file [rec_entry] with a Resolver table that knows nothing. *)
Definition blind_pkg : Package := mkPackage (mkInfo ∅ ∅) [rec_entry].

Definition blind_load (entryFile : string) : option (list Package) := Some [blind_pkg].

Lemma unresolved_entry_file_yields_nothing_witness :
  CollectUsedDeclarations blind_load revOrder 0 "entry.go" = Ok (∅, []).
Proof.
  apply (unresolved_entry_file_yields_nothing blind_load revOrder 0 "entry.go"
           blind_pkg [] rec_entry).
  - reflexivity.
  - reflexivity.
  - intros Hin%list_elem_of_In. simpl in Hin.
    repeat destruct Hin as [Hin|Hin]; try discriminate Hin. done.
  - intros d id _ _. reflexivity.
Defined.

(** ** The errors of [CollectUsedDeclarations] *)

Lemma find_None_iff {A} (p : A → bool) (l : list A) :
  find p l = None ↔ ∀ x, x ∈ l → p x = false.
Proof.
  split.
  - intros H x Hx. apply list_elem_of_In in Hx. by eapply find_none.
  - induction l as [|x l IH]; intros H; [done|]. simpl.
    rewrite (H x) by left. apply IH. intros y Hy. apply H. by right.
Qed.

(** X9.  [CollectUsedDeclarations] reports a load failure exactly when
    [packages.Load] fails or returns no package, and a missing entry
    exactly when a package is loaded and none of the files of the first
    package carries the entry file's name; both are decided before any
    traversal, so they do not depend on the fuel or the map order.  Of
    the packages that are loaded only the first one is ever looked at. *)
Theorem collect_error_behaviour packages_Load order fuel entryFile :
  (CollectUsedDeclarations packages_Load order fuel entryFile = Err ErrLoad ↔
   packages_Load entryFile = None ∨ packages_Load entryFile = Some []) ∧
  (CollectUsedDeclarations packages_Load order fuel entryFile = Err ErrNoEntry ↔
   ∃ pkg rest, packages_Load entryFile = Some (pkg :: rest) ∧
               ∀ f, f ∈ Syntax pkg → Filename f ≠ entryFile) ∧
  (∀ pkg rest, packages_Load entryFile = Some (pkg :: rest) →
     CollectUsedDeclarations packages_Load order fuel entryFile =
     CollectUsedDeclarations (λ _, Some [pkg]) order fuel entryFile).
Proof.
  unfold CollectUsedDeclarations.
  destruct (packages_Load entryFile) as [[|pkg rest]|] eqn:Hload.
  - split_and!; [naive_solver| |done].
    split; [done|]. by intros (? & ? & ? & _).
  - destruct (find _ (Syntax pkg)) as [entryAST|] eqn:Hfind.
    + split_and!.
      * split; [|naive_solver]. by destruct (seed _ _ _ _ _).
      * split; [by destruct (seed _ _ _ _ _)|].
        intros (pkg' & rest' & [= <- <-] & Hnone).
        apply find_some in Hfind as [Hin Hname].
        apply bool_decide_eq_true in Hname.
        by apply list_elem_of_In, Hnone in Hin.
      * intros pkg' rest' [= <- <-]. by rewrite Hfind.
    + split_and!.
      * split; [done|naive_solver].
      * split; [|done]. intros _. exists pkg, rest. split; [done|].
        intros f Hf. rewrite find_None_iff in Hfind.
        apply Hfind in Hf. by apply bool_decide_eq_false in Hf.
      * intros pkg' rest' [= <- <-]. by rewrite Hfind.
  - split_and!; [naive_solver| |done].
    split; [done|]. by intros (? & ? & ? & _).
Qed.

(** ** A single call of [visit] *)

(** X13.  A call of [visit] that returns, from any state, only adds: the
    visited objects and the used names of before are still there, no key
    of [declMap] is removed, and the argument is visited.  Whatever the
    call marks visited has its name in [used], and every entry of
    [declMap] that the call wrote or overwrote maps the name of a visited
    object to a declaration of the unit that declares this name. *)
Theorem visit_only_adds info files fuel ref st st' :
  visit info files fuel ref st = Done st' →
  visited st ⊆ visited st' ∧ used st ⊆ used st' ∧
  dom (declMap st) ⊆ dom (declMap st') ∧
  (∀ o, ref = Some o → o ∈ visited st') ∧
  (∀ o, o ∈ visited st' → o ∈ visited st ∨ obj_name o ∈ used st') ∧
  (∀ n d, declMap st' !! n = Some d →
          declMap st !! n = Some d ∨
          (d ∈ allDecls files ∧ n ∈ declNames d ∧
           ∃ o, o ∈ visited st' ∧ obj_name o = n)).
Proof.
  intros Hrun.
  pose proof (visit_grows info files fuel ref st st' Hrun) as [Hv Hu].
  split_and!; [done|done| | | |].
  - revert Hrun.
    apply (visit_hoare info files
             (λ s, dom (declMap st) ⊆ dom (declMap s)) (λ _, True)); try done.
    intros o d s _ _ _ _ Hs. simpl. rewrite dom_insert. set_solver.
  - intros o ->. by eapply visit_arg_visited.
  - revert Hrun.
    apply (visit_hoare info files
             (λ s, ∀ o, o ∈ visited s → o ∈ visited st ∨ obj_name o ∈ used s)
             (λ _, True)); try done; [|by left].
    intros o s _ Hs _ o'. simpl. rewrite elem_of_union, elem_of_singleton.
    intros [->|[?|?]%Hs]; [right|by left|right]; set_solver.
  - revert Hrun.
    apply (visit_hoare info files
             (λ s, ∀ n d, declMap s !! n = Some d →
                          declMap st !! n = Some d ∨
                          (d ∈ allDecls files ∧ n ∈ declNames d ∧
                           ∃ o, o ∈ visited s ∧ obj_name o = n))
             (λ _, True)); try done; [| |by left].
    + intros o s _ Hs _ n d. simpl. intros [?|(? & ? & o' & ? & ?)]%Hs; [by left|].
      right. split_and!; [done..|]. exists o'. set_solver.
    + intros o d s _ Ho Hd Hn Hs n d'. simpl. rewrite lookup_insert.
      case_decide as E; [|apply Hs].
      intros [= <-]. subst n. right. eauto.
Qed.

Lemma visit_only_adds_witness :
  ∃ st',
    visit cyc_info (Syntax cyc_pkg) 3 (Some cyc_A) emptyState = Done st' ∧
    dom (declMap emptyState) ⊆ dom (declMap st') ∧
    cyc_A ∈ visited st'.
Proof.
  destruct (visit cyc_info (Syntax cyc_pkg) 3 (Some cyc_A) emptyState)
    as [st'| |] eqn:E; [|by vm_compute in E..].
  exists st'. split; [done|].
  destruct (visit_only_adds _ _ _ _ _ _ E) as (_ & _ & Hd & Ha & _).
  split; [exact Hd|]. by apply Ha.
Defined.

(** ** The driver *)

Lemma WriteFilteredSource_cases {FS} (env : Env FS) entryFile outFile decls w w' failed :
  WriteFilteredSource env entryFile outFile decls w = (w', failed) →
  (os_ReadFile env (fs w) entryFile = None ∧ failed = true ∧ fs w' = fs w ∧
   journal w' = journal w ++ [EvReadFile entryFile]) ∨
  (∃ src, os_ReadFile env (fs w) entryFile = Some src ∧
          parser_ParseFile env entryFile src = None ∧ failed = true ∧
          fs w' = fs w ∧
          journal w' = journal w ++ [EvReadFile entryFile; EvParseFile entryFile]) ∨
  (∃ src file fs1 failed1,
     os_ReadFile env (fs w) entryFile = Some src ∧
     parser_ParseFile env entryFile src = Some file ∧
     os_MkdirAll env (fs w) (filepath_Dir env outFile) = (fs1, failed1) ∧
     ((failed1 = true ∧ failed = true ∧ fs w' = fs1 ∧
       journal w' = journal w ++ [EvReadFile entryFile; EvParseFile entryFile;
                                  EvMkdirAll (filepath_Dir env outFile)]) ∨
      (failed1 = false ∧
       ∃ fs2 failed2,
         os_Create env fs1 outFile = (fs2, failed2) ∧
         ((failed2 = true ∧ failed = true ∧ fs w' = fs2 ∧
           journal w' = journal w ++ [EvReadFile entryFile; EvParseFile entryFile;
                                      EvMkdirAll (filepath_Dir env outFile);
                                      EvCreate outFile]) ∨
          (failed2 = false ∧
           format_Node env fs2 outFile (mkFile (Filename file) decls) = (fs w', failed) ∧
           journal w' = journal w ++ [EvReadFile entryFile; EvParseFile entryFile;
                                      EvMkdirAll (filepath_Dir env outFile);
                                      EvCreate outFile; EvFormat outFile]))))).
Proof.
  unfold WriteFilteredSource. simpl. intros H.
  destruct (os_ReadFile env (fs w) entryFile) as [src|] eqn:Hread;
    [|inversion H; subst; left; done].
  destruct (parser_ParseFile env entryFile src) as [file|] eqn:Hparse;
    [|inversion H; subst; right; left; exists src; simpl;
      by rewrite <- app_assoc].
  right. right. exists src, file.
  destruct (os_MkdirAll env (fs w) (filepath_Dir env outFile)) as [fs1 failed1]
    eqn:Hmk.
  exists fs1, failed1. split_and!; [done..|].
  destruct failed1; simpl in H.
  { inversion H; subst. left. simpl. by rewrite <- !app_assoc. }
  right. split; [done|].
  destruct (os_Create env fs1 outFile) as [fs2 failed2] eqn:Hcr.
  exists fs2, failed2. split; [done|].
  destruct failed2; simpl in H.
  { inversion H; subst. left. simpl. by rewrite <- !app_assoc. }
  right. split; [done|].
  destruct (format_Node env fs2 outFile (mkFile (Filename file) decls))
    as [fs3 failed3] eqn:Hfmt.
  inversion H; subst. simpl. by rewrite <- !app_assoc.
Qed.

(** X10.  [WriteFilteredSource] touches nothing when the entry file cannot
    be read or parsed: it returns an error with the file system as it
    was, having created neither the directory nor the file.  When it
    returns no error, the directory was made, then the file created, then
    the printer run on the parsed entry file with its declaration list
    replaced by exactly the declarations given, and the file system is
    the one the printer left. *)
Theorem WriteFilteredSource_contract
    {FS} (env : Env FS) entryFile outFile decls w w' failed :
  WriteFilteredSource env entryFile outFile decls w = (w', failed) →
  ((os_ReadFile env (fs w) entryFile = None ∨
    ∃ src, os_ReadFile env (fs w) entryFile = Some src ∧
           parser_ParseFile env entryFile src = None) →
   failed = true ∧ fs w' = fs w ∧
   ∀ ev, ev ∈ journal w' → ev ∈ journal w ∨ ev = EvReadFile entryFile ∨
                            ev = EvParseFile entryFile) ∧
  (failed = false →
   ∃ src file fs1 fs2,
     os_ReadFile env (fs w) entryFile = Some src ∧
     parser_ParseFile env entryFile src = Some file ∧
     os_MkdirAll env (fs w) (filepath_Dir env outFile) = (fs1, false) ∧
     os_Create env fs1 outFile = (fs2, false) ∧
     format_Node env fs2 outFile (mkFile (Filename file) decls) = (fs w', false) ∧
     journal w' = journal w ++ [EvReadFile entryFile; EvParseFile entryFile;
                                EvMkdirAll (filepath_Dir env outFile);
                                EvCreate outFile; EvFormat outFile]).
Proof.
  intros H. apply WriteFilteredSource_cases in H
    as [(Hr & -> & Hfs & Hj)
       |[(src & Hr & Hp & -> & Hfs & Hj)
        |(src & file & fs1 & failed1 & Hr & Hp & Hmk &
          [(-> & -> & Hfs & Hj)
          |(-> & fs2 & failed2 & Hcr &
            [(-> & -> & Hfs & Hj)|(-> & Hfmt & Hj)])])]];
    (split; [|try done]).
  - intros _. split_and!; [done..|]. intros ev. rewrite Hj, elem_of_app.
    intros [?|?%list_elem_of_singleton]; auto.
  - intros _. split_and!; [done..|]. intros ev. rewrite Hj, elem_of_app.
    intros [?|[->|[->|[]%elem_of_nil]%elem_of_cons]%elem_of_cons]; auto.
  - intros [Hn|(src' & Hs & Hn)]; congruence.
  - intros [Hn|(src' & Hs & Hn)]; congruence.
  - intros [Hn|(src' & Hs & Hn)]; congruence.
  - intros ->. exists src, file, fs1, fs2. done.
Qed.

Lemma WriteFilteredSource_contract_witness :
  ∃ src file fs1 fs2,
    os_ReadFile (mapEnv false false) (fs world0) "entry.go" = Some src ∧
    parser_ParseFile (mapEnv false false) "entry.go" src = Some file ∧
    os_MkdirAll (mapEnv false false) (fs world0)
      (filepath_Dir (mapEnv false false) "output/entry.go") = (fs1, false) ∧
    os_Create (mapEnv false false) fs1 "output/entry.go" = (fs2, false) ∧
    format_Node (mapEnv false false) fs2 "output/entry.go"
      (mkFile (Filename file) (Decls rec_entry))
    = (<["output/entry.go" := "package main; func F() { F() }"]> (fs world0), false) ∧
    [EvReadFile "entry.go"; EvParseFile "entry.go"; EvMkdirAll "output";
     EvCreate "output/entry.go"; EvFormat "output/entry.go"]
    = journal world0 ++
      [EvReadFile "entry.go"; EvParseFile "entry.go";
       EvMkdirAll (filepath_Dir (mapEnv false false) "output/entry.go");
       EvCreate "output/entry.go"; EvFormat "output/entry.go"].
Proof.
  refine (proj2 (WriteFilteredSource_contract (mapEnv false false) "entry.go"
                   "output/entry.go" (Decls rec_entry) world0
                   (mkWorld (<["output/entry.go" := "package main; func F() { F() }"]>
                               (fs world0))
                            [EvReadFile "entry.go"; EvParseFile "entry.go";
                             EvMkdirAll "output"; EvCreate "output/entry.go";
                             EvFormat "output/entry.go"])
                   false _) eq_refl).
  vm_compute. reflexivity.
Defined.

Lemma autoFixImports_cases {FS} (env : Env FS) filePath w w' failed :
  autoFixImports env filePath w = (w', failed) →
  (os_ReadFile env (fs w) filePath = None ∧ failed = true ∧ fs w' = fs w ∧
   journal w' = journal w ++ [EvReadFile filePath]) ∨
  (∃ src, os_ReadFile env (fs w) filePath = Some src ∧
          imports_Process env filePath src = None ∧ failed = true ∧
          fs w' = fs w ∧
          journal w' = journal w ++ [EvReadFile filePath; EvProcess filePath]) ∨
  (∃ src fixed, os_ReadFile env (fs w) filePath = Some src ∧
                imports_Process env filePath src = Some fixed ∧
                os_WriteFile env (fs w) filePath fixed = (fs w', failed) ∧
                journal w' = journal w ++ [EvReadFile filePath; EvProcess filePath;
                                           EvWriteFile filePath fixed]).
Proof.
  unfold autoFixImports. simpl. intros H.
  destruct (os_ReadFile env (fs w) filePath) as [src|] eqn:Hread;
    [|inversion H; subst; left; done].
  destruct (imports_Process env filePath src) as [fixed|] eqn:Hproc;
    [|inversion H; subst; right; left; exists src; simpl; by rewrite <- app_assoc].
  destruct (os_WriteFile env (fs w) filePath fixed) as [fs1 failed1] eqn:Hwr.
  inversion H; subst. right. right. exists src, fixed. simpl.
  by rewrite <- !app_assoc.
Qed.

(** X11.  On a file system where a file that was written without error
    reads back as written, a call of [autoFixImports] that returns no
    error has read the file, had [imports.Process] normalize what it
    read, and written the outcome back: afterwards the file holds exactly
    what [imports.Process] returned, and these three calls are all it
    did. *)
Theorem autoFixImports_writes_the_normalized_text
    {FS} (env : Env FS) filePath w w' :
  (∀ fs0 path data fs1,
     os_WriteFile env fs0 path data = (fs1, false) →
     os_ReadFile env fs1 path = Some data) →
  autoFixImports env filePath w = (w', false) →
  ∃ src fixed,
    os_ReadFile env (fs w) filePath = Some src ∧
    imports_Process env filePath src = Some fixed ∧
    os_ReadFile env (fs w') filePath = Some fixed ∧
    journal w' = journal w ++ [EvReadFile filePath; EvProcess filePath;
                               EvWriteFile filePath fixed].
Proof.
  intros Hlaw H. apply autoFixImports_cases in H
    as [(_ & ? & _)|[(src & _ & _ & ? & _)|(src & fixed & Hr & Hp & Hw & Hj)]];
    [done..|].
  exists src, fixed. split_and!; [done..| |done]. by eapply Hlaw.
Qed.

(** The world after a successful normalization of [worldWritten]. *)
Definition worldNormalized : World (gmap string string) :=
  mkWorld (<["output/entry.go" := "package main; func F() { F() }"]> (fs worldWritten))
          (journalWritten ++
           [EvReadFile "output/entry.go"; EvProcess "output/entry.go";
            EvWriteFile "output/entry.go" "package main; func F() { F() }"]).

Lemma autoFixImports_writes_the_normalized_text_witness :
  ∃ src fixed,
    os_ReadFile (mapEnv false false) (fs worldWritten) "output/entry.go" = Some src ∧
    imports_Process (mapEnv false false) "output/entry.go" src = Some fixed ∧
    os_ReadFile (mapEnv false false) (fs worldNormalized) "output/entry.go"
    = Some fixed ∧
    journal worldNormalized =
    journal worldWritten ++
      [EvReadFile "output/entry.go"; EvProcess "output/entry.go";
       EvWriteFile "output/entry.go" fixed].
Proof.
  apply (autoFixImports_writes_the_normalized_text (mapEnv false false)
           "output/entry.go" worldWritten worldNormalized).
  - intros fs0 path data fs1 [= <-]. apply lookup_insert_eq.
  - vm_compute. reflexivity.
Defined.

Lemma main_cases {FS} (env : Env FS) order nameOrder fuel inputPath outputDir w w' :
  main env order nameOrder fuel inputPath outputDir w = Returned w' →
  (inputPath = "" ∧ w' = record (EvLog MsgNoInput) w) ∨
  (inputPath ≠ "" ∧
   ∃ e, CollectUsedDeclarations (packages_Load_at env (fs w)) order fuel inputPath
        = Err e ∧
        w' = record (EvLog (MsgAnalysisFailed e)) (record (EvLoad inputPath) w)) ∨
  (inputPath ≠ "" ∧
   ∃ usedSymbols decls w3 failed,
     CollectUsedDeclarations (packages_Load_at env (fs w)) order fuel inputPath
     = Ok (usedSymbols, decls) ∧
     WriteFilteredSource env inputPath
       (filepath_Join env outputDir (filepath_Base env inputPath)) decls
       (logAll (MsgHeader :: map MsgName (rangeNames nameOrder usedSymbols))
               (record (EvLoad inputPath) w))
     = (w3, failed) ∧
     ((failed = true ∧ w' = record (EvLog MsgWriteFailed) w3) ∨
      (failed = false ∧
       ∃ w4 failed',
         autoFixImports env (filepath_Join env outputDir (filepath_Base env inputPath)) w3
         = (w4, failed') ∧
         w' = record (EvLog (MsgCut (filepath_Join env outputDir
                                       (filepath_Base env inputPath)))) w4))).
Proof.
  unfold main. case_decide as Hin; [intros [= <-]; by left|].
  destruct (CollectUsedDeclarations _ _ _ _) as [[usedSymbols decls]|e| |] eqn:Hc;
    [|intros [= <-]; right; left; eauto|done..].
  destruct (WriteFilteredSource _ _ _ _ _) as [w3 failed] eqn:Hw.
  intros H. right. right. split; [done|]. exists usedSymbols, decls, w3, failed.
  split_and!; [done..|]. destruct failed.
  - inversion H; subst. by left.
  - destruct (autoFixImports _ _ _) as [w4 failed'] eqn:Ha. inversion H; subst.
    right. eauto.
Qed.

(** X12.  Whenever [main] returns, it has only added to the journal and
    its last action was to log a line.  It leaves the file system as it
    found it unless the analysis succeeded and the entry file could be
    read and parsed.  It calls [imports.Process] on a file only right
    after the printer wrote that file and the file was read back; and it
    logs success only for a file that the printer wrote. *)
Theorem main_acts_only_after_success
    {FS} (env : Env FS) order nameOrder fuel inputPath outputDir w w' :
  main env order nameOrder fuel inputPath outputDir w = Returned w' →
  ∃ evs,
    journal w' = journal w ++ evs ∧
    (∃ m, last evs = Some (EvLog m)) ∧
    (fs w' = fs w ∨
     (inputPath ≠ "" ∧
      ∃ usedSymbols decls src file,
        CollectUsedDeclarations (packages_Load_at env (fs w)) order fuel inputPath
        = Ok (usedSymbols, decls) ∧
        os_ReadFile env (fs w) inputPath = Some src ∧
        parser_ParseFile env inputPath src = Some file)) ∧
    (∀ p, EvProcess p ∈ evs →
          ∃ pre post, evs = pre ++ [EvFormat p; EvReadFile p; EvProcess p] ++ post) ∧
    (∀ p, EvLog (MsgCut p) ∈ evs → EvFormat p ∈ evs).
Proof.
  intros H. apply main_cases in H
    as [[_ ->]|[(_ & e & _ & ->)
               |(Hin & usedSymbols & decls & w3 & failed & Hc & Hw & H)]].
  - exists [EvLog MsgNoInput]. split_and!; [done|by eexists|by left| |];
      intros p [[=]|[]%elem_of_nil]%elem_of_cons.
  - exists [EvLoad inputPath; EvLog (MsgAnalysisFailed e)].
    split_and!; [simpl; by rewrite <- app_assoc|by eexists|by left| |];
      intros p [[=]|[[=]|[]%elem_of_nil]%elem_of_cons]%elem_of_cons.
  - set (outPath := filepath_Join env outputDir (filepath_Base env inputPath)) in *.
    set (logs := map EvLog (MsgHeader :: map MsgName (rangeNames nameOrder usedSymbols))).
    assert (∀ ev, ev ∈ EvLoad inputPath :: logs →
                  (∀ p, ev ≠ EvProcess p) ∧ (∀ p, ev ≠ EvLog (MsgCut p))) as Hlogs.
    { intros ev [->|Hev]%elem_of_cons; [done|].
      apply elem_of_list_map in Hev as (m & Hm & ->).
      split; [done|]. intros p [= ->].
      apply elem_of_cons in Hm as [|(? & ? & ?)%elem_of_list_map]; done. }
    assert (∀ w0 : World FS,
              journal (logAll (MsgHeader :: map MsgName (rangeNames nameOrder usedSymbols))
                              (record (EvLoad inputPath) w0))
              = journal w0 ++ EvLoad inputPath :: logs) as Hj2.
    { intros w0. simpl. by rewrite <- app_assoc. }
    assert (∃ wrote, journal w3 = journal w ++ (EvLoad inputPath :: logs) ++ wrote ∧
                     (∀ ev, ev ∈ wrote → (∀ p, ev ≠ EvProcess p) ∧
                                         (∀ p, ev ≠ EvLog (MsgCut p))) ∧
                     (failed = false →
                      ∃ pre, wrote = pre ++ [EvFormat outPath]) ∧
                     ((fs w3 = fs w ∧ failed = true) ∨
                      ∃ src file, os_ReadFile env (fs w) inputPath = Some src ∧
                                  parser_ParseFile env inputPath src = Some file))
      as (wrote & Hj3 & Hwrote & Hfmt & Hfs3).
    { apply WriteFilteredSource_cases in Hw
        as [(Hr & -> & Hfs & Hj)
           |[(src & Hr & Hp & -> & Hfs & Hj)
            |(src & file & fs1 & failed1 & Hr & Hp & Hmk &
              [(-> & -> & Hfs & Hj)
              |(-> & fs2 & failed2 & Hcr &
                [(-> & -> & Hfs & Hj)|(-> & Hfmt & Hj)])])]];
        rewrite Hj2 in Hj;
        (eexists; split; [rewrite Hj; by rewrite <- app_assoc|]);
        (split_and!;
         [ intros ev Hev;
           repeat (apply elem_of_cons in Hev as [->|Hev]; [done|]);
           by apply elem_of_nil in Hev
         | try done
         | first [ by left | right; by eauto ] ]).
      intros _.
      by exists [EvReadFile inputPath; EvParseFile inputPath;
                 EvMkdirAll (filepath_Dir env outPath); EvCreate outPath]. }
    destruct H as [[-> ->]|(-> & w4 & failed' & Ha & ->)].
    + exists ((EvLoad inputPath :: logs) ++ wrote ++ [EvLog MsgWriteFailed]).
      split_and!.
      * simpl. rewrite Hj3. by rewrite <- !app_assoc.
      * exists MsgWriteFailed. by rewrite !app_assoc, last_snoc.
      * destruct Hfs3 as [[? _]|(src & file & ? & ?)]; [by left|right].
        split; [done|]. by exists usedSymbols, decls, src, file.
      * intros p [Hp|[Hp|Hp]%elem_of_app]%elem_of_app.
        -- by destruct (Hlogs _ Hp) as [Hn _]; destruct (Hn p).
        -- by destruct (Hwrote _ Hp) as [Hn _]; destruct (Hn p).
        -- by apply list_elem_of_singleton in Hp.
      * intros p [Hp|[Hp|Hp]%elem_of_app]%elem_of_app.
        -- by destruct (Hlogs _ Hp) as [_ Hn]; destruct (Hn p).
        -- by destruct (Hwrote _ Hp) as [_ Hn]; destruct (Hn p).
        -- by apply list_elem_of_singleton in Hp.
    + destruct (Hfmt eq_refl) as [pre ->].
      assert (∃ tail, journal w4 = journal w3 ++ EvReadFile outPath :: tail ∧
                      (tail = [] ∨ ∃ post, tail = EvProcess outPath :: post ∧
                                           ∀ ev, ev ∈ post → ∀ p, ev ≠ EvProcess p) ∧
                      (∀ ev, ev ∈ tail → ∀ p, ev ≠ EvLog (MsgCut p)) ∧
                      (∀ p, EvProcess p ∈ tail → p = outPath))
        as (tail & Hj4 & Htail & Hnolog & Hproc).
      { apply autoFixImports_cases in Ha
          as [(_ & _ & _ & Hj)|[(src & _ & _ & _ & _ & Hj)
                               |(src & fixed & _ & _ & _ & Hj)]];
          (eexists; split; [exact Hj|]); split_and!.
        - by left.
        - by intros ev ?%elem_of_nil.
        - by intros p ?%elem_of_nil.
        - right. exists []. split; [done|]. by intros ev ?%elem_of_nil.
        - intros ev ->%list_elem_of_singleton. done.
        - by intros p [= ->]%list_elem_of_singleton.
        - right. eexists. split; [done|].
          intros ev ->%list_elem_of_singleton. done.
        - intros ev [->| ->%list_elem_of_singleton]%elem_of_cons; done.
        - intros p [[= ->]|[=]%list_elem_of_singleton]%elem_of_cons. done. }
      exists ((EvLoad inputPath :: logs) ++ (pre ++ [EvFormat outPath]) ++
              EvReadFile outPath :: tail ++ [EvLog (MsgCut outPath)]).
      split_and!.
      * simpl. rewrite Hj4, Hj3. by rewrite <- !app_assoc.
      * exists (MsgCut outPath).
        replace ((EvLoad inputPath :: logs) ++ (pre ++ [EvFormat outPath]) ++
                 EvReadFile outPath :: tail ++ [EvLog (MsgCut outPath)])
          with (((EvLoad inputPath :: logs) ++ (pre ++ [EvFormat outPath]) ++
                 EvReadFile outPath :: tail) ++ [EvLog (MsgCut outPath)])
          by (by rewrite <- !app_assoc).
        apply last_snoc.
      * right. split; [done|].
        destruct Hfs3 as [[_ [=]]|(src & file & ? & ?)].
        by exists usedSymbols, decls, src, file.
      * intros p Hp.
        assert (EvProcess p ∈ tail) as Hp'.
        { apply elem_of_app in Hp as [Hp|Hp]; [by destruct (Hlogs _ Hp) as [Hn _]; destruct (Hn p)|].
          apply elem_of_app in Hp as [Hp|Hp];
            [by destruct (Hwrote _ Hp) as [Hn _]; destruct (Hn p)|].
          apply elem_of_cons in Hp as [|Hp]; [done|].
          apply elem_of_app in Hp as [|Hp]; [done|].
          by apply list_elem_of_singleton in Hp. }
        pose proof (Hproc p Hp') as ->.
        destruct Htail as [->|(post & -> & _)]; [by apply elem_of_nil in Hp'|].
        exists ((EvLoad inputPath :: logs) ++ pre), (post ++ [EvLog (MsgCut outPath)]).
        simpl. by rewrite <- !app_assoc.
      * intros p Hp.
        assert (p = outPath) as ->.
        { apply elem_of_app in Hp as [Hp|Hp]; [by destruct (Hlogs _ Hp) as [_ Hn]; destruct (Hn p)|].
          apply elem_of_app in Hp as [Hp|Hp];
            [by destruct (Hwrote _ Hp) as [_ Hn]; destruct (Hn p)|].
          apply elem_of_cons in Hp as [|Hp]; [done|].
          apply elem_of_app in Hp as [Hp|Hp]; [by destruct (Hnolog _ Hp p)|].
          by apply list_elem_of_singleton in Hp as [= ->]. }
        apply elem_of_app. right. apply elem_of_app. left.
        apply elem_of_app. right. left.
Qed.

Lemma main_acts_only_after_success_witness :
  ∃ evs,
    journal (record (EvLog (MsgCut "output/entry.go")) worldNormalized)
    = journal world0 ++ evs ∧
    (∃ m, last evs = Some (EvLog m)) ∧
    (fs (record (EvLog (MsgCut "output/entry.go")) worldNormalized) = fs world0 ∨
     ("entry.go" ≠ "" ∧
      ∃ usedSymbols decls src file,
        CollectUsedDeclarations (packages_Load_at (mapEnv false false) (fs world0))
          stdOrder 1 "entry.go"
        = Ok (usedSymbols, decls) ∧
        os_ReadFile (mapEnv false false) (fs world0) "entry.go" = Some src ∧
        parser_ParseFile (mapEnv false false) "entry.go" src = Some file)) ∧
    (∀ p, EvProcess p ∈ evs →
          ∃ pre post, evs = pre ++ [EvFormat p; EvReadFile p; EvProcess p] ++ post) ∧
    (∀ p, EvLog (MsgCut p) ∈ evs → EvFormat p ∈ evs).
Proof.
  apply (main_acts_only_after_success (mapEnv false false) stdOrder stdNames 1
           "entry.go" "output" world0
           (record (EvLog (MsgCut "output/entry.go")) worldNormalized)).
  vm_compute. reflexivity.
Defined.
